(** * 1brc: memory-mapped, multithreaded aggregation (src/main.cpp)

    A shallow embedding of [src/main.cpp] and the properties of its
    segmenter, line scanner, value parser, statistics, merger and reporter.

    Conventions of the embedding.
    - [std::string_view] is the list of the bytes it views.
    - [std::size_t] is a [Z] in [0, 2^64) with the wrap-around of unsigned
      arithmetic written out ([to_size_t]); [npos] is [2^64 - 1].
    - [int16_t], [int32_t] and [int64_t] are [Z] with two's complement
      wrap-around ([to_int16], [to_int32], [to_int64]).
    - A computation that can leave the defined behaviour of C++ or throw
      returns an [outcome]: [Ok v], [Throw e] for a C++ exception, or
      [Undefined u] for an operation whose behaviour the language leaves
      undefined (a subscript outside a view, [front()] of an empty span,
      dereferencing [end()], a division by zero). Loops run on fuel;
      [OutOfFuel] is the outcome of a loop whose fuel ran out, and the
      fuel each caller passes is shown to suffice.
    - [StatsMap] ([std::unordered_map<std::string, Stats>]) is a
      [gmap (list byte) Stats.t]: keys are compared by their bytes. The
      hash function ([StringHash]) and the order in which an unordered
      map is iterated do not show in the results; the hash function is
      embedded on its own and the order is not modelled.
    - The worker threads write disjoint slots and are joined before the
      merge; they are modelled by a map over the segments. *)

From Stdlib Require Import ZArith Lia.
From Stdlib Require Import Strings.Byte Strings.String DecimalString.
From stdpp Require Import base list gmap fin_maps sorting.

Open Scope Z_scope.

(** ** Outcomes *)

Inductive exception : Type :=
  | out_of_range        (* std::out_of_range *)
  | invalid_argument    (* std::invalid_argument *)
  | length_error        (* std::length_error *)
  | runtime_error.      (* std::runtime_error *)

Inductive undefined : Type :=
  | subscript_out_of_bounds   (* string_view::operator[] with pos >= size() *)
  | front_of_empty_span       (* span::front() on an empty span *)
  | deref_end_iterator        (* *it with it == end() *)
  | division_by_zero.         (* x / 0 *)

Inductive outcome (A : Type) : Type :=
  | Ok (a : A)
  | Throw (e : exception)
  | Undefined (u : undefined)
  | OutOfFuel.

Arguments Ok {A} a.
Arguments Throw {A} e.
Arguments Undefined {A} u.
Arguments OutOfFuel {A}.

#[global] Instance outcome_ret : MRet outcome := fun A a => Ok a.
#[global] Instance outcome_bind : MBind outcome := fun A B f m =>
  match m with
  | Ok a => f a
  | Throw e => Throw e
  | Undefined u => Undefined u
  | OutOfFuel => OutOfFuel
  end.

(** Monadic map over a list, left to right. *)
Fixpoint mapM_outcome {A B} (f : A -> outcome B) (l : list A) : outcome (list B) :=
  match l with
  | [] => Ok []
  | x :: l' => y ← f x; ys ← mapM_outcome f l'; Ok (y :: ys)
  end.

(** ** Machine integers *)

Definition to_size_t (z : Z) : Z := z mod 2 ^ 64.
Definition npos : Z := 2 ^ 64 - 1.

Definition to_int16 (z : Z) : Z := (z + 2 ^ 15) mod 2 ^ 16 - 2 ^ 15.
Definition to_int32 (z : Z) : Z := (z + 2 ^ 31) mod 2 ^ 32 - 2 ^ 31.
Definition to_int64 (z : Z) : Z := (z + 2 ^ 63) mod 2 ^ 64 - 2 ^ 63.

Definition int16_range (z : Z) : Prop := - 2 ^ 15 <= z < 2 ^ 15.
Definition int32_range (z : Z) : Prop := - 2 ^ 31 <= z < 2 ^ 31.
Definition int64_range (z : Z) : Prop := - 2 ^ 63 <= z < 2 ^ 63.

(** ** Bytes and string views *)

Abbreviation bytes := (list byte).

#[global] Instance byte_eq_decision : EqDecision byte := Byte.byte_eq_dec.
#[global] Instance byte_countable : Countable byte :=
  inj_countable Byte.to_N Byte.of_N Byte.of_to_N.

(** The bytes of a literal. *)
Definition B (s : string) : bytes := list_byte_of_string s.

Definition nl : byte := x0a.          (* '\n' *)
Definition data_sep : byte := x3b.    (* ';' *)

(** [char] is a signed 8-bit type on the platforms the program targets
    (POSIX [mmap], x86-64); its promotion to [int]. *)
Definition char_to_int (c : byte) : Z :=
  let n := Z.of_N (Byte.to_N c) in
  if n <? 128 then n else n - 256.

Definition sv_size (s : bytes) : Z := Z.of_nat (length s).

(** [s[i]]: undefined outside the view. *)
Definition sv_at (s : bytes) (i : Z) : outcome byte :=
  if (0 <=? i) && (i <? sv_size s)
  then match s !! Z.to_nat i with
       | Some c => Ok c
       | None => Undefined subscript_out_of_bounds
       end
  else Undefined subscript_out_of_bounds.

(** [s.find(c, pos)]: the first index [>= pos] holding [c], or [npos]. *)
Definition sv_find (s : bytes) (c : byte) (pos : Z) : Z :=
  if sv_size s <=? pos then npos
  else match list_find (fun x => x = c) (drop (Z.to_nat pos) s) with
       | Some (k, _) => pos + Z.of_nat k
       | None => npos
       end.

(** [s.substr(pos, count)]: throws when [pos > size()], and clamps
    [count] to the bytes that remain. *)
Definition sv_substr (s : bytes) (pos count : Z) : outcome bytes :=
  if sv_size s <? pos then Throw out_of_range
  else Ok (take (Z.to_nat (Z.min count (sv_size s - pos)))
             (drop (Z.to_nat pos) s)).

(** [s.remove_prefix(n)]. *)
Definition sv_remove_prefix (s : bytes) (n : Z) : bytes := drop (Z.to_nat n) s.

(** ** Hash of the map keys: [StringHash]

    FNV-1a on 32 bits. [hash] is an [unsigned]; every byte is converted
    from [char] to [unsigned] before the exclusive or, and the product
    wraps around. *)

Definition to_uint32 (z : Z) : Z := z mod 2 ^ 32.

Module StringHash.

Definition prime : Z := 0x01000193.
Definition offset : Z := 0x811C9DC5.

(** One round of the loop: [hash ^= static_cast<unsigned>(c); hash *= prime]. *)
Definition step (hash : Z) (c : byte) : Z :=
  to_uint32 (Z.lxor hash (to_uint32 (char_to_int c)) * prime).

Definition hash (arg : bytes) : Z := foldl step offset arg.

End StringHash.

(** ** Fast value parser: [get_temperature] *)

Definition get_temperature (value : bytes) : outcome Z :=
  c0 ← sv_at value 0;
  let '(sign, value) :=
    if decide (c0 = "-"%byte) then (-1, sv_remove_prefix value 1) else (1, value) in
  (* assume values in "d.d" or "dd.d" format *)
  if sv_size value =? 3 then
    v0 ← sv_at value 0;
    v2 ← sv_at value 2;
    Ok (to_int16 (sign * (10 * char_to_int v0 + char_to_int v2
                          - char_to_int "0"%byte * 11)))
  else
    v0 ← sv_at value 0;
    v1 ← sv_at value 1;
    v3 ← sv_at value 3;
    Ok (to_int16 (sign * (100 * char_to_int v0 + 10 * char_to_int v1
                          + char_to_int v3 - char_to_int "0"%byte * 111))).

(** ** Line scanner: [Reader] *)

Module Reader.

Record t : Type := mk { data_ : bytes; pos_ : Z }.

(** [explicit Reader(std::string_view data)]; [pos_ = 0]. *)
Definition new (data : bytes) : t := {| data_ := data; pos_ := 0 |}.

(** [getline(line)]: [Ok None] is the [false] return (the reader and
    [line] are left as they were); [Ok (Some (line, r'))] is [true] with
    the line that was stored and the reader advanced. *)
Definition getline (r : t) : outcome (option (bytes * t)) :=
  let nl_ := sv_find (data_ r) nl (pos_ r) in
  if nl_ =? npos then Ok None
  else
    line ← sv_substr (data_ r) (pos_ r) (to_size_t (nl_ - pos_ r));
    Ok (Some (line, {| data_ := data_ r; pos_ := to_size_t (nl_ + 1) |})).

End Reader.

(** [for (auto line = std::string_view{}; reader.getline(line); ) body]:
    the loop over the lines of a reader, threading the state [s] that the
    body updates. *)
Fixpoint for_each_line {S : Type} (fuel : nat) (body : bytes -> S -> outcome S)
    (reader : Reader.t) (s : S) : outcome S :=
  match fuel with
  | O => OutOfFuel
  | Datatypes.S fuel' =>
      r ← Reader.getline reader;
      match r with
      | None => Ok s
      | Some (line, reader') =>
          s' ← body line s;
          for_each_line fuel' body reader' s'
      end
  end.

(** The sequence of lines the scanner yields for a segment. Every
    successful [getline] consumes at least the terminator, so
    [length data + 1] rounds are enough. *)
Definition scan_lines (data : bytes) : outcome (list bytes) :=
  for_each_line (Datatypes.S (length data))
    (fun line acc => Ok (acc ++ [line])) (Reader.new data) [].

(** ** Statistics: [Stats] *)

Module Stats.

Record t : Type := mk { min_ : Z; max_ : Z; sum_ : Z; count_ : Z }.

(** The default member initialisers. *)
Definition init : t :=
  {| min_ := 2 ^ 15 - 1;      (* numeric_limits<int16_t>::max() *)
     max_ := - 2 ^ 15;        (* numeric_limits<int16_t>::min() *)
     sum_ := 0;
     count_ := 0 |}.

Definition update (s : t) (temp : Z) : t :=
  {| min_ := Z.min (min_ s) temp;
     max_ := Z.max (max_ s) temp;
     sum_ := to_int64 (sum_ s + temp);
     count_ := to_int32 (count_ s + 1) |}.

Definition merge (s o : t) : t :=
  {| min_ := Z.min (min_ s) (min_ o);
     max_ := Z.max (max_ s) (max_ o);
     sum_ := to_int64 (sum_ s + sum_ o);
     count_ := to_int32 (count_ s + count_ o) |}.

(** The fields hold values of their C++ types. *)
Definition well_typed (s : t) : Prop :=
  int16_range (min_ s) /\ int16_range (max_ s) /\
  int64_range (sum_ s) /\ int32_range (count_ s).

End Stats.

Abbreviation StatsMap := (gmap bytes Stats.t).

(** ** Worker count: [number_of_threads] *)

(** [std::isspace] in the C locale. *)
Definition isspace (c : byte) : bool :=
  match c with
  | x20 | x09 | x0a | x0b | x0c | x0d => true
  | _ => false
  end.

Definition isdigit (c : byte) : bool :=
  let n := Byte.to_N c in ((48 <=? n) && (n <=? 57))%N.

Fixpoint skip_while (p : byte -> bool) (s : bytes) : bytes :=
  match s with
  | c :: s' => if p c then skip_while p s' else s
  | [] => []
  end.

Fixpoint span_while (p : byte -> bool) (s : bytes) : bytes :=
  match s with
  | c :: s' => if p c then c :: span_while p s' else []
  | [] => []
  end.

Definition decimal_value (digits : bytes) : Z :=
  foldl (fun acc d => acc * 10 + (char_to_int d - 48)) 0 digits.

(** The conversion of the digits that follow the sign. *)
Definition stoi_digits (negative : bool) (s : bytes) : outcome Z :=
  match span_while isdigit s with
  | [] => Throw invalid_argument
  | digits =>
      let v := decimal_value digits in
      let v := if negative then - v else v in
      if (- 2 ^ 31 <=? v) && (v <? 2 ^ 31) then Ok v else Throw out_of_range
  end.

(** [std::stoi(str)] (base 10), as the C++ standard specifies it through
    [strtol]: leading white space is skipped, an optional sign and the
    longest run of decimal digits are converted and the rest is ignored;
    [std::invalid_argument] when there is no digit to convert,
    [std::out_of_range] when the value is not an [int]. *)
Definition stoi (str : bytes) : outcome Z :=
  match skip_while isspace str with
  | x2d :: s => stoi_digits true s      (* '-' *)
  | x2b :: s => stoi_digits false s     (* '+' *)
  | s => stoi_digits false s
  end.

(** [env_NUM_THREADS] is the result of [std::getenv("NUM_THREADS")]
    ([None] for a null pointer); [hardware_concurrency] is the
    [unsigned] that [std::thread::hardware_concurrency()] returns, which
    the [int] return type converts. *)
Definition number_of_threads (env_NUM_THREADS : option bytes)
    (hardware_concurrency : Z) : outcome Z :=
  match env_NUM_THREADS with
  | Some nthreads => stoi nthreads
  | None => Ok (to_int32 hardware_concurrency)
  end.

(** ** Segmenter: [split_input] *)

(** The boundaries [(start, end)] of segment [i] after both adjustments. *)
Definition segment_bounds (data : bytes) (chunks size i : Z) : outcome (Z * Z) :=
  let start := to_size_t (i * size) in
  let end_ := to_size_t (start + size) in
  (* start at next line *)
  start ←
    (if i >? 0 then
       c ← sv_at data (to_size_t (start - 1));
       if decide (c <> nl) then Ok (to_size_t (sv_find data nl start + 1))
       else Ok start
     else Ok start);
  (* end at eol *)
  end_ ←
    (if i <? chunks then
       c ← sv_at data (to_size_t (end_ - 1));
       if decide (c <> nl) then Ok (to_size_t (sv_find data nl end_ + 1))
       else Ok end_
     else Ok end_);
  Ok (start, end_).

(** One round of the loop: the view stored in [segments[i]]. *)
Definition segment (data : bytes) (chunks size i : Z) : outcome bytes :=
  '(start, end_) ← segment_bounds data chunks size i;
  sv_substr data start (to_size_t (end_ - start)).

Fixpoint split_loop (data : bytes) (chunks size : Z) (indices : list Z)
    (segments : list bytes) : outcome (list bytes) :=
  match indices with
  | [] => Ok segments
  | i :: indices' =>
      seg ← segment data chunks size i;
      split_loop data chunks size indices' (<[Z.to_nat i := seg]> segments)
  end.

(** [chunks] is an [int]. A negative one converts to a [size_t] above
    [max_size()], which the vector constructor rejects. *)
Definition split_input (data : bytes) (chunks : Z) : outcome (list bytes) :=
  if chunks <? 0 then Throw length_error
  else
    let segments := replicate (Z.to_nat chunks) ([] : bytes) in
    if chunks =? 0 then Undefined division_by_zero
    else
      let size := to_size_t (sv_size data + chunks - 1) / chunks in
      split_loop data chunks size (seqZ 0 chunks) segments.

(** ** Local aggregator: [process_segment] *)

Definition make_map : StatsMap := ∅.

(** The body of the loop of [process_segment] for one line. *)
Definition process_line (line : bytes) (cities : StatsMap) : outcome StatsMap :=
  let sep := sv_find line data_sep 0 in
  city ← sv_substr line 0 sep;
  value ← sv_substr line (to_size_t (sep + 1)) npos;
  temp ← get_temperature value;
  let '(it, cities) :=
    match cities !! city with
    | Some stats => (stats, cities)
    | None => (Stats.init, <[city := Stats.init]> cities)
    end in
  Ok (<[city := Stats.update it temp]> cities).

Definition process_segment (data : bytes) : outcome StatsMap :=
  for_each_line (Datatypes.S (length data)) process_line (Reader.new data) make_map.

(** ** Merger: [merge_results] *)

(** [merged[city].merge(stats)]: [operator[]] inserts a default [Stats]
    when the key is absent. *)
Definition merge_city (city : bytes) (stats : Stats.t) (merged : StatsMap) : StatsMap :=
  <[city := Stats.merge (default Stats.init (merged !! city)) stats]> merged.

Definition merge_results (results : list StatsMap) : outcome StatsMap :=
  match results with
  | [] => Undefined front_of_empty_span
  | front :: rest =>
      Ok (foldl (fun merged cities => map_fold merge_city merged cities) front rest)
  end.

(** ** Worker scheduler: [process_all]

    Each thread reads its own segment and writes its own slot of
    [results]; the threads share nothing else and all are joined before
    the merge, so the slots are the results of the segments in order. *)
Definition process_all (segments : list bytes) : outcome StatsMap :=
  results ← mapM_outcome process_segment segments;
  merge_results results.

(** ** Reporter: [dump_results] *)

(** Lexicographic comparison of keys by unsigned byte value
    ([std::less<std::string>], through [char_traits<char>::compare]). *)
Fixpoint bytes_compare (a b : bytes) : comparison :=
  match a, b with
  | [], [] => Eq
  | [], _ :: _ => Lt
  | _ :: _, [] => Gt
  | x :: a', y :: b' =>
      match N.compare (Byte.to_N x) (Byte.to_N y) with
      | Eq => bytes_compare a' b'
      | c => c
      end
  end.

Definition bytes_lt (a b : bytes) : Prop := bytes_compare a b = Lt.
Definition key_le (p q : bytes * Stats.t) : Prop := bytes_compare p.1 q.1 <> Gt.

#[global] Instance key_le_dec p q : Decision (key_le p q).
Proof. unfold key_le. destruct (bytes_compare p.1 q.1); [left|left|right]; congruence. Defined.

(** The entries of a map in ascending key order: the iteration order of
    the [std::map] built from them. *)
Definition sorted_entries (cities : StatsMap) : list (bytes * Stats.t) :=
  merge_sort key_le (map_to_list cities).

(** Floating point is outside the embedding: the operations on [double]
    and [float] that [Stats::min], [Stats::max], [Stats::avg] and the
    format specification use are the fields of a [FloatOps]. *)
Class FloatOps : Type := {
  double : Type;
  float : Type;
  double_of_int : Z -> double;               (* int to double *)
  double_div : double -> double -> double;   (* x / y *)
  ten : double;                              (* 10.0 *)
  float_of_double : double -> float;         (* double to float *)
  format_1f : float -> bytes                 (* "{:.1f}" *)
}.

Section Reporter.
Context {F : FloatOps}.

Definition Stats_min (s : Stats.t) : float :=
  float_of_double (double_div (double_of_int (Stats.min_ s)) ten).

Definition Stats_max (s : Stats.t) : float :=
  float_of_double (double_div (double_of_int (Stats.max_ s)) ten).

Definition Stats_avg (s : Stats.t) : float :=
  float_of_double
    (double_div (double_div (double_of_int (Stats.sum_ s)) ten)
       (double_of_int (Stats.count_ s))).

(** [std::formatter<Stats>::format]: ["{:.1f}/{:.1f}/{:.1f}"]. *)
Definition format_Stats (obj : Stats.t) : bytes :=
  format_1f (Stats_min obj) ++ B "/" ++ format_1f (Stats_avg obj) ++ B "/"
    ++ format_1f (Stats_max obj).

(** ["{}={}"] and [", {}={}"]. *)
Definition format_first (elem : bytes * Stats.t) : bytes :=
  elem.1 ++ B "=" ++ format_Stats elem.2.
Definition format_next (elem : bytes * Stats.t) : bytes :=
  B ", " ++ elem.1 ++ B "=" ++ format_Stats elem.2.

(** The bytes written to standard output. [sorted] is the [std::map]
    built from the entries, iterated in ascending key order. *)
Definition dump_results (cities : StatsMap) : outcome bytes :=
  let sorted := sorted_entries cities in
  match sorted with
  | [] => Undefined deref_end_iterator
  | it :: rest =>
      Ok (B "{" ++ format_first it ++ concat (map format_next rest)
            ++ B "}" ++ [nl])
  end.

(** ** [process_file] and [main] *)

(** What the program reads from its environment. Of [mmap] only the
    failure POSIX prescribes for a zero length ([EINVAL]) is modelled. *)
Record world : Type := {
  files : bytes -> option bytes;       (* the content of a readable file *)
  env_NUM_THREADS : option bytes;      (* getenv("NUM_THREADS") *)
  hardware_concurrency : Z             (* std::thread::hardware_concurrency() *)
}.

(** [MappedFile{path}] followed by the conversion to a view. *)
Definition MappedFile (w : world) (path : bytes) : outcome bytes :=
  match files w path with
  | None => Throw runtime_error                  (* could not open file *)
  | Some content =>
      if sv_size content =? 0 then Throw runtime_error   (* could not memory-map file *)
      else Ok content
  end.

Definition process_file (w : world) (data_file : bytes) : outcome bytes :=
  file ← MappedFile w data_file;
  chunks ← number_of_threads (env_NUM_THREADS w) (hardware_concurrency w);
  segments ← split_input file chunks;
  cities ← process_all segments;
  dump_results cities.

Definition EXIT_SUCCESS : Z := 0.
Definition EXIT_FAILURE : Z := 1.

(** The result of a run: what was written to the two streams, whether
    [process_file] was entered and on which path, and the exit code
    ([Ok]) or the way the process died. *)
Record run : Type := {
  stderr : bytes;
  stdout : bytes;
  processed : option bytes;
  exit : outcome Z
}.

(** [argv] holds [argc] strings, the program name first. *)
Definition main (w : world) (argc : Z) (argv : list bytes) : run :=
  if argc >? 2 then
    {| stderr := B "usage: main [ <input_file> ]" ++ [nl]; stdout := [];
       processed := None; exit := Ok EXIT_FAILURE |}
  else
    let data_file :=
      if argc =? 2 then default [] (argv !! 1%nat) else B "measurements.txt" in
    match process_file w data_file with
    | Ok out =>
        {| stderr := []; stdout := out; processed := Some data_file;
           exit := Ok EXIT_SUCCESS |}
    | Throw e =>
        {| stderr := []; stdout := []; processed := Some data_file;
           exit := Throw e |}
    | Undefined u =>
        {| stderr := []; stdout := []; processed := Some data_file;
           exit := Undefined u |}
    | OutOfFuel =>
        {| stderr := []; stdout := []; processed := Some data_file;
           exit := OutOfFuel |}
    end.

End Reporter.

(** ** Definitions used to state the properties *)

(** The decimal digit [d] as a character. *)
Definition digit_char (d : Z) : byte :=
  default "0"%byte (Byte.of_N (Z.to_N (48 + d))).

(** The text of the scaled integer [v] in the input format: an optional
    sign, one or two integer digits, the point and one fractional digit. *)
Definition encode_temperature (v : Z) : bytes :=
  let a := Z.abs v in
  (if v <? 0 then ["-"%byte] else []) ++
  (if a <? 100 then [] else [digit_char (a / 100)]) ++
  [digit_char (a / 10 mod 10); "."%byte; digit_char (a mod 10)].

Definition sum_Z (l : list Z) : Z := foldr Z.add 0 l.

(** [reachable s vs]: [s] is obtained from the initial state by updates
    and merges, and [vs] lists the values that were applied on the way. *)
Inductive reachable : Stats.t -> list Z -> Prop :=
  | reachable_init : reachable Stats.init []
  | reachable_update s vs temp :
      reachable s vs -> int16_range temp ->
      reachable (Stats.update s temp) (vs ++ [temp])
  | reachable_merge s vs o ws :
      reachable s vs -> reachable o ws ->
      reachable (Stats.merge s o) (vs ++ ws).

(** The text of a list of lines, each followed by its terminator. *)
Definition join_lines (lines : list bytes) : bytes :=
  concat (map (fun l => l ++ [nl]) lines).

(** The loop of [for_each_line] over a list of lines. *)
Fixpoint fold_lines {S : Type} (body : bytes -> S -> outcome S)
    (lines : list bytes) (s : S) : outcome S :=
  match lines with
  | [] => Ok s
  | line :: lines' => s' ← body line s; fold_lines body lines' s'
  end.

(** The statistics of [city] in the maps that have it, in order. *)
Definition stats_of (city : bytes) (maps : list StatsMap) : list Stats.t :=
  omap (fun m : StatsMap => m !! city) maps.

Definition well_typed_map (m : StatsMap) : Prop :=
  forall city s, m !! city = Some s -> Stats.well_typed s.

(** The size of a view is a [size_t] below [npos]. *)
Definition valid_view (data : bytes) : Prop := sv_size data < npos.

(** The lines of a text and the unterminated rest after the last
    terminator. *)
Fixpoint split_lines (data : bytes) : list bytes * bytes :=
  match data with
  | [] => ([], [])
  | c :: data' =>
      let '(lines, tail) := split_lines data' in
      if decide (c = nl) then ([] :: lines, tail)
      else match lines with
           | [] => ([], c :: tail)
           | l :: lines' => ((c :: l) :: lines', tail)
           end
  end.

(** The entry of [k] while the maps are folded into the accumulator. *)
Definition fold_entry (k : bytes) (o : option Stats.t) (maps : list StatsMap)
    : option Stats.t :=
  foldl (fun o (m : StatsMap) =>
           match m !! k with
           | Some s => Some (Stats.merge (default Stats.init o) s)
           | None => o
           end) o maps.

(** The combination of a list of statistics, field by field. *)
Definition combine_stats (ss : list Stats.t) : Stats.t :=
  {| Stats.min_ := foldr Z.min (2 ^ 15 - 1) (map Stats.min_ ss);
     Stats.max_ := foldr Z.max (- 2 ^ 15) (map Stats.max_ ss);
     Stats.sum_ := to_int64 (sum_Z (map Stats.sum_ ss));
     Stats.count_ := to_int32 (sum_Z (map Stats.count_ ss)) |}.

(** An instance of [FloatOps] with exact rational arithmetic, to run the
    reporter on examples: a number is a fraction [(n, d)] with [d >= 0],
    and ["{:.1f}"] rounds it to tenths, ties to even. It is not IEEE 754
    (no rounding in the divisions or in the conversion to [float]); the
    properties below hold for every instance and never unfold this one. *)
Definition decimal (n : Z) : bytes :=
  list_byte_of_string (DecimalString.NilZero.string_of_uint (N.to_uint (Z.to_N n))).

Definition exact_format_1f (x : Z * Z) : bytes :=
  let '(n, d) := x in
  if d =? 0 then B "nan"
  else
    let q := 10 * Z.abs n / d in
    let r := 10 * Z.abs n mod d in
    let q := if d <? 2 * r then q + 1
             else if d =? 2 * r then q + q mod 2 else q in
    (if n <? 0 then B "-" else []) ++ decimal (q / 10) ++ B "." ++ decimal (q mod 10).

Definition exact_FloatOps : FloatOps :=
  {| double := Z * Z;
     float := Z * Z;
     double_of_int := fun z => (z, 1);
     double_div := fun x y => (x.1 * y.2 * Z.sgn y.1, x.2 * Z.abs y.1);
     ten := (10, 1);
     float_of_double := fun x => x;
     format_1f := exact_format_1f |}.

(** The world of the examples: the default input file holds three
    measurements and one worker is configured. *)
Definition example_world : world :=
  {| files := fun path =>
       if decide (path = B "measurements.txt")
       then Some (B "Hamburg;12.0" ++ [nl] ++ B "Hamburg;8.0" ++ [nl]
                    ++ B "Palermo;-3.5" ++ [nl])
       else None;
     env_NUM_THREADS := Some (B "1");
     hardware_concurrency := 8 |}.

(** Failures other than [front()] on an empty span. *)
Definition not_front_failure {A} (o : outcome A) : Prop :=
  o <> Undefined front_of_empty_span.

(** [data] ends with a line terminator. *)
Definition terminated (data : bytes) : Prop := last data = Some nl.

(** The bytes of [data] in [[a, b)]. *)
Definition slice (data : bytes) (a b : Z) : bytes :=
  take (Z.to_nat (b - a)) (drop (Z.to_nat a) data).

(** A boundary [p >= 1] moved to the start of the next line, as both
    adjustments of [split_input] compute it: [p] itself when the byte
    before it is a terminator, else one past the next terminator. *)
Definition align (data : bytes) (p : Z) : Z :=
  match data !! Z.to_nat (p - 1) with
  | Some c => if decide (c <> nl) then to_size_t (sv_find data nl p + 1) else p
  | None => p
  end.

Definition segment_start (data : bytes) (size i : Z) : Z :=
  if i >? 0 then align data (i * size) else i * size.

Definition segment_end (data : bytes) (size i : Z) : Z :=
  align data (i * size + size).

(** The part of [process_file] between the mapping of the file and the
    report: from the buffer and the worker count to the merged map. *)
Definition aggregate (data : bytes) (chunks : Z) : outcome StatsMap :=
  segments ← split_input data chunks;
  process_all segments.

(** The record of a line: its name and its scaled value, the part of
    [process_line] that does not touch the map. *)
Definition parse_line (line : bytes) : outcome (bytes * Z) :=
  let sep := sv_find line data_sep 0 in
  city ← sv_substr line 0 sep;
  value ← sv_substr line (to_size_t (sep + 1)) npos;
  temp ← get_temperature value;
  Ok (city, temp).

(** The update of the map by one record. *)
Definition record_update (cities : StatsMap) (r : bytes * Z) : StatsMap :=
  <[r.1 := Stats.update (default Stats.init (cities !! r.1)) r.2]> cities.

(** The values recorded for [city], in order. *)
Definition temps_of (city : bytes) (records : list (bytes * Z)) : list Z :=
  omap (fun r : bytes * Z => if decide (r.1 = city) then Some r.2 else None) records.

(** The entry of a name while its values are applied. *)
Definition apply_temps (o : option Stats.t) (temps : list Z) : option Stats.t :=
  foldl (fun o t => Some (Stats.update (default Stats.init o) t)) o temps.

(** The text after the optional sign: what [get_temperature] reads once
    it has removed a leading ['-']. *)
Definition unsigned_part (value : bytes) : bytes :=
  match value with
  | c :: rest => if decide (c = "-"%byte) then rest else value
  | [] => []
  end.

(** The line of a record: the name, the separator and the text of the
    scaled value. *)
Definition encode_record (r : bytes * Z) : bytes :=
  r.1 ++ data_sep :: encode_temperature r.2.

(** A record whose line is well formed: the name holds neither the
    separator nor a line terminator and the value has at most two
    integer digits. *)
Definition record_ok (r : bytes * Z) : Prop :=
  (data_sep ∉ r.1) /\ (nl ∉ r.1) /\ -999 <= r.2 <= 999.

(** The statistics of a list of values applied to the initial state. *)
Definition stats_of_temps (ts : list Z) : Stats.t :=
  {| Stats.min_ := foldr Z.min (2 ^ 15 - 1) ts;
     Stats.max_ := foldr Z.max (- 2 ^ 15) ts;
     Stats.sum_ := to_int64 (sum_Z ts);
     Stats.count_ := to_int32 (Z.of_nat (length ts)) |}.

(** The second half of [get_temperature], after the sign has been
    taken: the conversion of the text that remains. *)
Definition convert_digits (sign : Z) (value : bytes) : outcome Z :=
  if sv_size value =? 3 then
    v0 ← sv_at value 0;
    v2 ← sv_at value 2;
    Ok (to_int16 (sign * (10 * char_to_int v0 + char_to_int v2
                          - char_to_int "0"%byte * 11)))
  else
    v0 ← sv_at value 0;
    v1 ← sv_at value 1;
    v3 ← sv_at value 3;
    Ok (to_int16 (sign * (100 * char_to_int v0 + 10 * char_to_int v1
                          + char_to_int v3 - char_to_int "0"%byte * 111))).

(** * Properties *)

(** ** Outcomes and machine integers *)

Lemma bind_Ok {A B} (m : outcome A) (f : A -> outcome B) b :
  m ≫= f = Ok b -> exists a, m = Ok a /\ f a = Ok b.
Proof. destruct m; cbn; intros H; try discriminate. eauto. Qed.

Lemma to_int16_id z : int16_range z -> to_int16 z = z.
Proof. unfold int16_range, to_int16. intros H. rewrite Z.mod_small; lia. Qed.

Lemma to_int32_id z : int32_range z -> to_int32 z = z.
Proof. unfold int32_range, to_int32. intros H. rewrite Z.mod_small; lia. Qed.

Lemma to_int64_id z : int64_range z -> to_int64 z = z.
Proof. unfold int64_range, to_int64. intros H. rewrite Z.mod_small; lia. Qed.

Lemma to_int32_range z : int32_range (to_int32 z).
Proof.
  unfold int32_range, to_int32.
  pose proof (Z.mod_pos_bound (z + 2 ^ 31) (2 ^ 32)). lia.
Qed.

Lemma to_int64_range z : int64_range (to_int64 z).
Proof.
  unfold int64_range, to_int64.
  pose proof (Z.mod_pos_bound (z + 2 ^ 63) (2 ^ 64)). lia.
Qed.

Lemma to_int64_add_l a b : to_int64 (to_int64 a + b) = to_int64 (a + b).
Proof.
  unfold to_int64. f_equal.
  replace ((a + 2 ^ 63) mod 2 ^ 64 - 2 ^ 63 + b + 2 ^ 63)
    with ((a + 2 ^ 63) mod 2 ^ 64 + b) by lia.
  rewrite Zplus_mod_idemp_l. f_equal. lia.
Qed.

Lemma to_int64_add_r a b : to_int64 (a + to_int64 b) = to_int64 (a + b).
Proof. rewrite Z.add_comm, to_int64_add_l. f_equal. lia. Qed.

Lemma to_int32_add_l a b : to_int32 (to_int32 a + b) = to_int32 (a + b).
Proof.
  unfold to_int32. f_equal.
  replace ((a + 2 ^ 31) mod 2 ^ 32 - 2 ^ 31 + b + 2 ^ 31)
    with ((a + 2 ^ 31) mod 2 ^ 32 + b) by lia.
  rewrite Zplus_mod_idemp_l. f_equal. lia.
Qed.

Lemma to_int32_add_r a b : to_int32 (a + to_int32 b) = to_int32 (a + b).
Proof. rewrite Z.add_comm, to_int32_add_l. f_equal. lia. Qed.

Lemma to_size_t_id z : 0 <= z < 2 ^ 64 -> to_size_t z = z.
Proof. intros H. unfold to_size_t. apply Z.mod_small. lia. Qed.

(** ** Fast value parser *)

Lemma digit_char_cases d :
  0 <= d <= 9 ->
  d = 0 \/ d = 1 \/ d = 2 \/ d = 3 \/ d = 4 \/ d = 5 \/ d = 6 \/ d = 7 \/ d = 8 \/ d = 9.
Proof. lia. Qed.

Lemma char_to_int_digit d : 0 <= d <= 9 -> char_to_int (digit_char d) = 48 + d.
Proof.
  intros H. destruct (digit_char_cases d H) as [->|[->|[->|[->|[->|[->|[->|[->|[->| ->]]]]]]]]];
    reflexivity.
Qed.

Lemma digit_char_not_minus d : 0 <= d <= 9 -> digit_char d <> "-"%byte.
Proof.
  intros H. destruct (digit_char_cases d H) as [->|[->|[->|[->|[->|[->|[->|[->|[->| ->]]]]]]]]];
    discriminate.
Qed.

Lemma sv_at_Ok (s : bytes) i c :
  0 <= i -> s !! Z.to_nat i = Some c -> sv_at s i = Ok c.
Proof.
  intros Hi Hl. unfold sv_at, sv_size.
  apply lookup_lt_Some in Hl as Hlt.
  destruct (Z.leb_spec 0 i); [|lia].
  destruct (Z.ltb_spec i (Z.of_nat (length s))); [|lia].
  cbn. by rewrite Hl.
Qed.

Lemma outcome_bind_Ok {A B} (a : A) (f : A -> outcome B) : Ok a ≫= f = f a.
Proof. reflexivity. Qed.

(** Reads at constant positions of a list that is long enough. *)
Ltac sv_at_step :=
  repeat (erewrite sv_at_Ok by (first [lia | reflexivity]));
  rewrite ?outcome_bind_Ok.

(** The parser on a text [d.d]. *)
Lemma get_temperature_d_d (negative : bool) b c :
  0 <= b <= 9 -> 0 <= c <= 9 ->
  get_temperature ((if negative then ["-"%byte] else [])
                     ++ [digit_char b; "."%byte; digit_char c])
  = Ok ((if negative then -1 else 1) * (10 * b + c)).
Proof.
  intros Hb Hc. unfold get_temperature.
  destruct negative; cbn [app]; sv_at_step.
  - destruct (decide ("-"%byte = "-"%byte)) as [_|E]; [|done].
    change (sv_size _) with 3. cbn [Z.eqb Pos.eqb].
    change (sv_remove_prefix _ 1) with [digit_char b; "."%byte; digit_char c].
    sv_at_step.
    rewrite !char_to_int_digit by done. f_equal.
    change (char_to_int "0") with 48.
    rewrite to_int16_id; [lia | unfold int16_range; lia].
  - destruct (decide (digit_char b = "-"%byte)) as [E|_].
    { by apply digit_char_not_minus in E. }
    change (sv_size _) with 3. cbn [Z.eqb Pos.eqb].
    sv_at_step.
    rewrite !char_to_int_digit by done. f_equal.
    change (char_to_int "0") with 48.
    rewrite to_int16_id; [lia | unfold int16_range; lia].
Qed.

(** The parser on a text [dd.d]. *)
Lemma get_temperature_dd_d (negative : bool) a b c :
  0 <= a <= 9 -> 0 <= b <= 9 -> 0 <= c <= 9 ->
  get_temperature ((if negative then ["-"%byte] else [])
                     ++ [digit_char a; digit_char b; "."%byte; digit_char c])
  = Ok ((if negative then -1 else 1) * (100 * a + 10 * b + c)).
Proof.
  intros Ha Hb Hc. unfold get_temperature.
  destruct negative; cbn [app]; sv_at_step.
  - destruct (decide ("-"%byte = "-"%byte)) as [_|E]; [|done].
    change (sv_size _) with 4. cbn [Z.eqb Pos.eqb].
    change (sv_remove_prefix _ 1)
      with [digit_char a; digit_char b; "."%byte; digit_char c].
    sv_at_step.
    rewrite !char_to_int_digit by done. f_equal.
    change (char_to_int "0") with 48.
    rewrite to_int16_id; [lia | unfold int16_range; lia].
  - destruct (decide (digit_char a = "-"%byte)) as [E|_].
    { by apply digit_char_not_minus in E. }
    change (sv_size _) with 4. cbn [Z.eqb Pos.eqb].
    sv_at_step.
    rewrite !char_to_int_digit by done. f_equal.
    change (char_to_int "0") with 48.
    rewrite to_int16_id; [lia | unfold int16_range; lia].
Qed.

(** C3. The parser inverts the encoding: for every scaled integer [v] with
    at most two integer digits and one fractional digit
    ([-999 <= v <= 999]), [get_temperature] applied to the text
    [-?d{1,2}.d] of [v] returns exactly [v]. *)
Theorem get_temperature_roundtrip (v : Z) :
  -999 <= v <= 999 ->
  get_temperature (encode_temperature v) = Ok v.
Proof.
  intros Hv. unfold encode_temperature.
  remember (Z.abs v) as a eqn:Ea.
  assert (Ha : 0 <= a <= 999) by lia.
  pose proof (Z.div_mod a 10 ltac:(lia)) as Hdm.
  pose proof (Z.mod_pos_bound a 10 ltac:(lia)) as Hm.
  pose proof (Z.div_mod (a / 10) 10 ltac:(lia)) as Hdm2.
  pose proof (Z.mod_pos_bound (a / 10) 10 ltac:(lia)) as Hm2.
  assert (Hdd : a / 100 = a / 10 / 10) by (rewrite Z.div_div; [done|lia|lia]).
  destruct (Z.ltb_spec a 100) as [Hlt|Hge].
  - assert (a / 10 / 10 = 0) by (apply Z.div_small; lia).
    replace ((if v <? 0 then ["-"%byte] else []) ++ [] ++
             [digit_char (a / 10 mod 10); "."%byte; digit_char (a mod 10)])
      with ((if v <? 0 then ["-"%byte] else []) ++
            [digit_char (a / 10 mod 10); "."%byte; digit_char (a mod 10)])
      by done.
    rewrite (get_temperature_d_d (v <? 0)) by lia.
    f_equal. destruct (Z.ltb_spec v 0); lia.
  - assert (0 <= a / 100 <= 9).
    { split; [apply Z.div_pos; lia|].
      assert (a / 100 < 10) by (apply Z.div_lt_upper_bound; lia). lia. }
    replace ((if v <? 0 then ["-"%byte] else []) ++ [digit_char (a / 100)] ++
             [digit_char (a / 10 mod 10); "."%byte; digit_char (a mod 10)])
      with ((if v <? 0 then ["-"%byte] else []) ++
            [digit_char (a / 100); digit_char (a / 10 mod 10); "."%byte;
             digit_char (a mod 10)])
      by done.
    rewrite (get_temperature_dd_d (v <? 0)) by lia.
    f_equal. destruct (Z.ltb_spec v 0); lia.
Qed.

Lemma get_temperature_roundtrip_witness :
  get_temperature (encode_temperature (-123)) = Ok (-123).
Proof. apply (get_temperature_roundtrip (-123)). lia. Defined.

(** ** Statistics *)

Lemma sum_Z_app l k : sum_Z (l ++ k) = sum_Z l + sum_Z k.
Proof. unfold sum_Z. induction l as [|x l IH]; cbn; [done|]. rewrite IH. lia. Qed.

(** The minimum and the maximum of the applied values, from the
    sentinels of the initial state. *)
Lemma foldr_min_app d l k :
  foldr Z.min d (l ++ k) = Z.min (foldr Z.min d l) (foldr Z.min d k).
Proof.
  induction l as [|x l IH]; cbn.
  - induction k as [|y k IHk]; cbn; lia.
  - rewrite IH. lia.
Qed.

Lemma foldr_max_app d l k :
  foldr Z.max d (l ++ k) = Z.max (foldr Z.max d l) (foldr Z.max d k).
Proof.
  induction l as [|x l IH]; cbn.
  - induction k as [|y k IHk]; cbn; lia.
  - rewrite IH. lia.
Qed.

Lemma foldr_min_max_nonempty (l : list Z) :
  Forall int16_range l -> l <> [] ->
  foldr Z.min (2 ^ 15 - 1) l <= foldr Z.max (- 2 ^ 15) l.
Proof.
  intros Hl Hne. destruct l as [|x l]; [done|].
  apply Forall_cons in Hl as [Hx Hl]. clear Hne. cbn.
  assert (foldr Z.min (2 ^ 15 - 1) l <= 2 ^ 15 - 1 /\ - 2 ^ 15 <= foldr Z.max (- 2 ^ 15) l)
    as [??]; [|unfold int16_range in Hx; lia].
  clear. induction l as [|y l [??]]; cbn; [lia|]. lia.
Qed.

Lemma sum_Z_bound (l : list Z) :
  Forall int16_range l ->
  - 2 ^ 15 * Z.of_nat (length l) <= sum_Z l <= 2 ^ 15 * Z.of_nat (length l).
Proof.
  induction 1 as [|x l Hx _ IH]; cbn [sum_Z foldr length]; [lia|].
  fold (sum_Z l). unfold int16_range in Hx. lia.
Qed.

(** What a reachable state holds, in terms of the values applied. *)
Lemma reachable_fields s vs :
  reachable s vs ->
  Forall int16_range vs /\
  Stats.min_ s = foldr Z.min (2 ^ 15 - 1) vs /\
  Stats.max_ s = foldr Z.max (- 2 ^ 15) vs /\
  Stats.sum_ s = to_int64 (sum_Z vs) /\
  Stats.count_ s = to_int32 (Z.of_nat (length vs)).
Proof.
  induction 1 as [|s vs temp _ (Hvs & Hmin & Hmax & Hsum & Hcnt) Ht
                  |s vs o ws _ (Hvs & Hmin & Hmax & Hsum & Hcnt)
                            _ (Hws & Hmin' & Hmax' & Hsum' & Hcnt')].
  - repeat split; try done.
  - cbn [Stats.update Stats.min_ Stats.max_ Stats.sum_ Stats.count_].
    split; [apply Forall_app; split; [done|by constructor]|].
    rewrite foldr_min_app, foldr_max_app, sum_Z_app, length_app, Hmin, Hmax, Hsum, Hcnt.
    cbn [foldr length sum_Z].
    unfold int16_range in Ht.
    repeat split.
    + lia.
    + lia.
    + rewrite to_int64_add_l. f_equal. lia.
    + rewrite to_int32_add_l. f_equal. lia.
  - cbn [Stats.merge Stats.min_ Stats.max_ Stats.sum_ Stats.count_].
    split; [apply Forall_app; by split|].
    rewrite foldr_min_app, foldr_max_app, sum_Z_app, length_app,
      Hmin, Hmax, Hsum, Hcnt, Hmin', Hmax', Hsum', Hcnt'.
    repeat split.
    + by rewrite to_int64_add_l, to_int64_add_r.
    + rewrite to_int32_add_l, to_int32_add_r. f_equal. lia.
Qed.

(** C7. Every [Stats] value reached from the initial state by updates
    and merges, [vs] being the values applied: [min <= max] whenever
    [count > 0]; [sum] is the sum of [vs] and [count] is the number of
    updates, both in the arithmetic of their fields ([int64_t],
    [int32_t]) and so exactly as long as fewer than [2^31] updates were
    applied; and the initial state is [min = 32767] (the largest
    [int16_t]), [max = -32768] (the smallest), [sum = 0], [count = 0]. *)
Theorem Stats_invariant s vs :
  reachable s vs ->
  (Stats.count_ s > 0 -> Stats.min_ s <= Stats.max_ s) /\
  Stats.sum_ s = to_int64 (sum_Z vs) /\
  Stats.count_ s = to_int32 (Z.of_nat (length vs)) /\
  (Z.of_nat (length vs) < 2 ^ 31 ->
     Stats.sum_ s = sum_Z vs /\ Stats.count_ s = Z.of_nat (length vs)) /\
  Stats.init = {| Stats.min_ := 32767; Stats.max_ := -32768;
                  Stats.sum_ := 0; Stats.count_ := 0 |} /\
  reachable Stats.init [].
Proof.
  intros Hr. destruct (reachable_fields s vs Hr) as (Hvs & Hmin & Hmax & Hsum & Hcnt).
  repeat split; try done.
  - intros Hpos. rewrite Hmin, Hmax. apply foldr_min_max_nonempty; [done|].
    intros ->. rewrite Hcnt in Hpos. vm_compute in Hpos. done.
  - rewrite Hsum. apply to_int64_id. pose proof (sum_Z_bound vs Hvs).
    unfold int64_range. lia.
  - rewrite Hcnt. apply to_int32_id. unfold int32_range. lia.
  - constructor.
Qed.

Lemma Stats_invariant_witness :
  let s := Stats.merge (Stats.update (Stats.update Stats.init 120) 80)
             (Stats.update Stats.init (-35)) in
  Stats.min_ s <= Stats.max_ s /\ Stats.sum_ s = 165 /\ Stats.count_ s = 3.
Proof.
  pose proof (Stats_invariant
    (Stats.merge (Stats.update (Stats.update Stats.init 120) 80)
       (Stats.update Stats.init (-35)))
    (([] ++ [120]) ++ [80] ++ ([] ++ [-35]))) as H.
  destruct H as (Hmm & _ & _ & Hex & _).
  - apply (reachable_merge _ (([] ++ [120]) ++ [80]) _ ([] ++ [-35])).
    + apply reachable_update; [apply reachable_update; [apply reachable_init|]|];
        unfold int16_range; lia.
    + apply reachable_update; [apply reachable_init|]. unfold int16_range; lia.
  - destruct Hex as [Hs Hc]; [cbn; lia|].
    cbn zeta. split; [apply Hmm; rewrite Hc; cbn; lia|]. split; [exact Hs|exact Hc].
Defined.

(** ** Line scanner *)

Lemma sv_find_found (pre l rest : bytes) (c : byte) :
  c ∉ l ->
  sv_find (pre ++ l ++ c :: rest) c (sv_size pre) = sv_size pre + sv_size l.
Proof.
  intros Hl. unfold sv_find, sv_size.
  rewrite !length_app. cbn [length].
  destruct (Z.leb_spec (Z.of_nat (length pre + (length l + S (length rest))))
              (Z.of_nat (length pre))); [lia|].
  rewrite Nat2Z.id, drop_app_length.
  assert (list_find (fun x => x = c) (l ++ c :: rest) = Some (length l, c)) as ->; [|done].
  apply list_find_Some. split; [|split; [done|]].
  - by rewrite lookup_app_r, Nat.sub_diag.
  - intros j y Hj Hlt ->. apply Hl.
    rewrite lookup_app_l in Hj by done. by eapply list_elem_of_lookup_2.
Qed.

Lemma sv_find_not_found (pre tail : bytes) (c : byte) :
  c ∉ tail -> sv_find (pre ++ tail) c (sv_size pre) = npos.
Proof.
  intros Ht. unfold sv_find, sv_size.
  destruct (Z.leb_spec (Z.of_nat (length (pre ++ tail))) (Z.of_nat (length pre))); [done|].
  rewrite Nat2Z.id, drop_app_length.
  assert (list_find (fun x => x = c) tail = None) as ->; [|done].
  apply list_find_None. apply Forall_forall. by intros x Hx ->.
Qed.

Lemma sv_substr_middle (pre l rest : bytes) :
  sv_substr (pre ++ l ++ rest) (sv_size pre) (sv_size l) = Ok l.
Proof.
  unfold sv_substr, sv_size. rewrite !length_app.
  destruct (Z.ltb_spec (Z.of_nat (length pre + (length l + length rest)))
              (Z.of_nat (length pre))); [lia|].
  rewrite Nat2Z.id, drop_app_length. f_equal.
  rewrite Z.min_l by lia. rewrite Nat2Z.id. by rewrite take_app_length.
Qed.

Lemma join_lines_cons l lines : join_lines (l :: lines) = l ++ nl :: join_lines lines.
Proof. unfold join_lines. cbn. by rewrite <- app_assoc. Qed.

Lemma join_lines_app l k : join_lines (l ++ k) = join_lines l ++ join_lines k.
Proof. unfold join_lines. by rewrite map_app, concat_app. Qed.

Lemma length_join_lines lines : (length lines <= length (join_lines lines))%nat.
Proof.
  induction lines as [|l lines IH]; [done|].
  rewrite join_lines_cons, length_app. cbn. lia.
Qed.

(** One successful [getline]: the reader stands at the start of a line
    [l] that is followed by its terminator. *)
Lemma getline_line (pre l rest : bytes) :
  nl ∉ l -> valid_view (pre ++ l ++ nl :: rest) ->
  Reader.getline {| Reader.data_ := pre ++ l ++ nl :: rest; Reader.pos_ := sv_size pre |}
  = Ok (Some (l, {| Reader.data_ := pre ++ l ++ nl :: rest;
                    Reader.pos_ := sv_size (pre ++ l ++ [nl]) |})).
Proof.
  intros Hl Hv. unfold Reader.getline. cbn [Reader.data_ Reader.pos_].
  rewrite sv_find_found by done.
  unfold valid_view, npos, sv_size in *.
  rewrite !length_app in *. cbn [length] in *.
  destruct (Z.eqb_spec (Z.of_nat (length pre) + Z.of_nat (length l)) (2 ^ 64 - 1)); [lia|].
  rewrite !to_size_t_id by lia.
  replace (Z.of_nat (length pre) + Z.of_nat (length l) - Z.of_nat (length pre))
    with (sv_size l) by (unfold sv_size; lia).
  pose proof (sv_substr_middle pre l (nl :: rest)) as Hs. unfold sv_size in Hs at 1.
  rewrite Hs. cbn. do 4 f_equal. lia.
Qed.

(** The [false] return: no terminator is left after the position. *)
Lemma getline_end (pre tail : bytes) :
  nl ∉ tail ->
  Reader.getline {| Reader.data_ := pre ++ tail; Reader.pos_ := sv_size pre |} = Ok None.
Proof.
  intros Ht. unfold Reader.getline. cbn [Reader.data_ Reader.pos_].
  by rewrite sv_find_not_found.
Qed.

(** The loop over a reader is the fold over the terminated lines that
    follow its position; the unterminated rest is not visited. *)
Lemma for_each_line_fold {S : Type} (body : bytes -> S -> outcome S) lines :
  forall (pre tail : bytes) (s : S) (fuel : nat),
  Forall (fun l => nl ∉ l) lines -> nl ∉ tail ->
  valid_view (pre ++ join_lines lines ++ tail) ->
  (length lines < fuel)%nat ->
  for_each_line fuel body
    {| Reader.data_ := pre ++ join_lines lines ++ tail; Reader.pos_ := sv_size pre |} s
  = fold_lines body lines s.
Proof.
  induction lines as [|l lines IH]; intros pre tail s fuel Hl Ht Hv Hfuel.
  - destruct fuel as [|fuel]; [cbn in Hfuel; lia|].
    cbn [for_each_line fold_lines join_lines map concat app].
    by rewrite getline_end.
  - destruct fuel as [|fuel]; [cbn in Hfuel; lia|].
    apply Forall_cons in Hl as [Hl Hls].
    cbn [for_each_line fold_lines].
    rewrite join_lines_cons in *.
    rewrite <- (app_assoc l), <- app_comm_cons in *.
    rewrite getline_line by done.
    rewrite outcome_bind_Ok.
    destruct (body l s) as [s'| | |]; cbn; try done.
    specialize (IH (pre ++ l ++ [nl]) tail s' fuel Hls Ht).
    replace ((pre ++ l ++ [nl]) ++ join_lines lines ++ tail)
      with (pre ++ l ++ nl :: join_lines lines ++ tail) in IH
      by (by rewrite <- !app_assoc).
    apply IH; [done|]. cbn in Hfuel. lia.
Qed.

Lemma fold_lines_collect lines (acc : list bytes) :
  fold_lines (fun line acc => Ok (acc ++ [line])) lines acc = Ok (acc ++ lines).
Proof.
  revert acc. induction lines as [|l lines IH]; intros acc; cbn.
  - by rewrite app_nil_r.
  - rewrite IH. by rewrite <- app_assoc.
Qed.

(** Every text is a list of terminated lines followed by a rest that
    holds no terminator. *)
Lemma split_lines_spec data :
  data = join_lines (split_lines data).1 ++ (split_lines data).2 /\
  Forall (fun l => nl ∉ l) (split_lines data).1 /\
  nl ∉ (split_lines data).2.
Proof.
  induction data as [|c data (IH1 & IH2 & IH3)]; cbn [split_lines].
  - repeat split; [constructor | apply not_elem_of_nil].
  - destruct (split_lines data) as [lines tail]. cbn [fst snd] in *.
    destruct (decide (c = nl)) as [->|Hc]; cbn [fst snd].
    + rewrite join_lines_cons. cbn [app]. repeat split; [congruence| |done].
      constructor; [apply not_elem_of_nil|done].
    + destruct lines as [|l lines]; cbn [fst snd].
      * cbn in IH1. subst data. repeat split; [constructor|].
        rewrite not_elem_of_cons. split; [congruence|done].
      * rewrite join_lines_cons in *. cbn [app].
        apply Forall_cons in IH2 as [Hl Hls].
        repeat split; [congruence| |done].
        constructor; [|done]. rewrite not_elem_of_cons. split; [congruence|done].
Qed.

(** C8. The lines the scanner yields for a segment: if the segment is
    the text of [lines], each followed by a terminator, and then a rest
    [tail] without terminator, the scanner yields exactly [lines], in
    order and without their terminators, and stops there: the
    unterminated [tail] is never yielded. *)
Theorem scan_lines_spec (lines : list bytes) (tail : bytes) :
  Forall (fun l => nl ∉ l) lines -> nl ∉ tail ->
  valid_view (join_lines lines ++ tail) ->
  scan_lines (join_lines lines ++ tail) = Ok lines.
Proof.
  intros Hl Ht Hv. unfold scan_lines, Reader.new.
  pose proof (for_each_line_fold (fun line acc => Ok (acc ++ [line])) lines [] tail []
                (Datatypes.S (length (join_lines lines ++ tail))) Hl Ht Hv) as H.
  cbn [app] in H. change (sv_size []) with 0 in H. rewrite H.
  - by rewrite fold_lines_collect.
  - rewrite length_app. pose proof (length_join_lines lines). lia.
Qed.

(** In particular the scanner returns on every segment, with the lines
    that [split_lines] gives. *)
Lemma scan_lines_total (data : bytes) :
  valid_view data -> scan_lines data = Ok (split_lines data).1.
Proof.
  intros Hv. destruct (split_lines_spec data) as (Hd & Hl & Ht).
  unfold scan_lines, Reader.new.
  pose proof (for_each_line_fold (fun line acc => Ok (acc ++ [line]))
                (split_lines data).1 [] (split_lines data).2 []
                (Datatypes.S (length data)) Hl Ht) as H.
  cbn [app] in H. rewrite <- Hd in H. change (sv_size []) with 0 in H.
  rewrite H; [by rewrite fold_lines_collect|done|].
  apply (f_equal length) in Hd. rewrite length_app in Hd.
  pose proof (length_join_lines (split_lines data).1). lia.
Qed.

Lemma scan_lines_spec_witness :
  scan_lines (join_lines [B "a;1.0"; B "bb;-2.5"] ++ B "cc;3") = Ok [B "a;1.0"; B "bb;-2.5"].
Proof.
  apply (scan_lines_spec [B "a;1.0"; B "bb;-2.5"] (B "cc;3")).
  - repeat constructor; intros H; apply list_elem_of_In in H; cbn in H;
      repeat (destruct H as [H|H]; [discriminate|]); done.
  - intros H; apply list_elem_of_In in H; cbn in H;
      repeat (destruct H as [H|H]; [discriminate|]); done.
  - unfold valid_view. vm_compute. reflexivity.
Defined.

(** ** Merger *)

Lemma Stats_merge_init_l s : Stats.well_typed s -> Stats.merge Stats.init s = s.
Proof.
  destruct s as [mn mx sm ct]. unfold Stats.well_typed, Stats.merge, Stats.init.
  cbn [Stats.min_ Stats.max_ Stats.sum_ Stats.count_].
  intros (Hmn & Hmx & Hsm & Hct). unfold int16_range in *.
  rewrite (to_int64_id (0 + sm)), (to_int32_id (0 + ct)) by done.
  f_equal; lia.
Qed.

(** Merging one map into the accumulator, key by key. *)
Lemma map_fold_merge_city_lookup (merged cities : StatsMap) (k : bytes) :
  map_fold merge_city merged cities !! k =
  match cities !! k with
  | Some s => Some (Stats.merge (default Stats.init (merged !! k)) s)
  | None => merged !! k
  end.
Proof.
  revert k.
  apply (map_fold_weak_ind (fun (r : StatsMap) (m : StatsMap) => forall k,
    r !! k = match m !! k with
             | Some s => Some (Stats.merge (default Stats.init (merged !! k)) s)
             | None => merged !! k
             end)).
  - intros k. by rewrite lookup_empty.
  - intros i x m r Hi IH k. unfold merge_city.
    destruct (decide (i = k)) as [->|Hne].
    + rewrite !lookup_insert_eq. rewrite IH, Hi. done.
    + rewrite !lookup_insert_ne by done. apply IH.
Qed.

Lemma foldl_merge_lookup (rest : list StatsMap) (front : StatsMap) (k : bytes) :
  foldl (fun merged cities => map_fold merge_city merged cities) front rest !! k
  = fold_entry k (front !! k) rest.
Proof.
  unfold fold_entry. revert front.
  induction rest as [|m rest IH]; intros front; cbn [foldl]; [done|].
  rewrite IH. by rewrite map_fold_merge_city_lookup.
Qed.

Lemma stats_of_cons (k : bytes) (m : StatsMap) (maps : list StatsMap) :
  stats_of k (m :: maps) =
  match m !! k with
  | Some s => s :: stats_of k maps
  | None => stats_of k maps
  end.
Proof. reflexivity. Qed.

Lemma fold_entry_cons (k : bytes) (o : option Stats.t) (m : StatsMap)
    (maps : list StatsMap) :
  fold_entry k o (m :: maps) =
  fold_entry k (match m !! k with
                | Some s => Some (Stats.merge (default Stats.init o) s)
                | None => o
                end) maps.
Proof. reflexivity. Qed.

Lemma fold_entry_Some (k : bytes) (maps : list StatsMap) : forall a : Stats.t,
  fold_entry k (Some a) maps = Some (foldl Stats.merge a (stats_of k maps)).
Proof.
  induction maps as [|m maps IH]; intros a; [done|].
  rewrite fold_entry_cons, stats_of_cons.
  destruct (m !! k) as [s|]; cbn [default foldl]; apply IH.
Qed.

Lemma fold_entry_None (k : bytes) (maps : list StatsMap) :
  fold_entry k None maps =
  match stats_of k maps with
  | [] => None
  | s :: ss => Some (foldl Stats.merge (Stats.merge Stats.init s) ss)
  end.
Proof.
  induction maps as [|m maps IH]; [done|].
  rewrite fold_entry_cons, stats_of_cons.
  destruct (m !! k) as [s|]; cbn [default]; [|apply IH].
  apply fold_entry_Some.
Qed.

Lemma Stats_merge_well_typed a s :
  Stats.well_typed a -> Stats.well_typed s -> Stats.well_typed (Stats.merge a s).
Proof.
  unfold Stats.well_typed, Stats.merge, int16_range.
  cbn [Stats.min_ Stats.max_ Stats.sum_ Stats.count_].
  intros (?&?&?&?) (?&?&?&?).
  repeat split; try lia; try apply to_int64_range; try apply to_int32_range.
Qed.

Lemma foldl_merge_combine ss : forall a,
  Stats.well_typed a -> Forall Stats.well_typed ss ->
  foldl Stats.merge a ss = combine_stats (a :: ss).
Proof.
  induction ss as [|s ss IH]; intros a Ha Hss.
  - destruct a as [mn mx sm ct]. unfold combine_stats, Stats.well_typed, int16_range in *.
    cbn [Stats.min_ Stats.max_ Stats.sum_ Stats.count_ foldl map foldr sum_Z] in *.
    destruct Ha as (?&?&?&?).
    rewrite (to_int64_id (sm + 0)), (to_int32_id (ct + 0)) by (by rewrite Z.add_0_r).
    f_equal; lia.
  - apply Forall_cons in Hss as [Hs Hss]. cbn [foldl].
    rewrite IH by auto using Stats_merge_well_typed.
    unfold combine_stats. cbn [map foldr sum_Z Stats.merge Stats.min_ Stats.max_ Stats.sum_ Stats.count_].
    f_equal; try lia.
    + rewrite to_int64_add_l. f_equal. lia.
    + rewrite to_int32_add_l. f_equal. lia.
Qed.

Lemma foldr_min_Permutation d (l k : list Z) :
  l ≡ₚ k -> foldr Z.min d l = foldr Z.min d k.
Proof. induction 1; cbn; [done|congruence|lia|congruence]. Qed.

Lemma foldr_max_Permutation d (l k : list Z) :
  l ≡ₚ k -> foldr Z.max d l = foldr Z.max d k.
Proof. induction 1; cbn; [done|congruence|lia|congruence]. Qed.

Lemma sum_Z_Permutation (l k : list Z) : l ≡ₚ k -> sum_Z l = sum_Z k.
Proof. unfold sum_Z. induction 1; cbn; [done|congruence|lia|congruence]. Qed.

Lemma combine_Permutation ss ss' : ss ≡ₚ ss' -> combine_stats ss = combine_stats ss'.
Proof.
  intros H. unfold combine_stats.
  rewrite (foldr_min_Permutation _ _ _ (Permutation_map Stats.min_ H)),
          (foldr_max_Permutation _ _ _ (Permutation_map Stats.max_ H)),
          (sum_Z_Permutation _ _ (Permutation_map Stats.sum_ H)),
          (sum_Z_Permutation _ _ (Permutation_map Stats.count_ H)).
  done.
Qed.

Lemma stats_of_well_typed (k : bytes) (maps : list StatsMap) :
  Forall well_typed_map maps -> Forall Stats.well_typed (stats_of k maps).
Proof.
  intros H. apply Forall_forall. intros s Hs.
  apply list_elem_of_omap in Hs as (m & Hm & Hk).
  rewrite Forall_forall in H. by apply (H m Hm k).
Qed.

(** The merged entry of every key, for a non-empty list of maps. *)
Lemma merge_results_lookup (front : StatsMap) (rest : list StatsMap) :
  Forall well_typed_map (front :: rest) ->
  exists merged,
    merge_results (front :: rest) = Ok merged /\
    forall k, merged !! k =
      match stats_of k (front :: rest) with
      | [] => None
      | ss => Some (combine_stats ss)
      end.
Proof.
  intros Hwt. eexists. split; [reflexivity|]. intros k.
  rewrite foldl_merge_lookup.
  pose proof (stats_of_well_typed k _ Hwt) as Hss.
  rewrite stats_of_cons in *.
  destruct (front !! k) as [a|].
  - apply Forall_cons in Hss as [Ha Hss].
    rewrite fold_entry_Some. f_equal. by apply foldl_merge_combine.
  - rewrite fold_entry_None.
    destruct (stats_of k rest) as [|s ss]; [done|].
    apply Forall_cons in Hss as [Hs Hss].
    rewrite Stats_merge_init_l by done. f_equal. by apply foldl_merge_combine.
Qed.

Lemma foldr_min_spec d (l : list Z) :
  l <> [] -> Forall (fun x => x <= d) l ->
  foldr Z.min d l ∈ l /\ forall x, x ∈ l -> foldr Z.min d l <= x.
Proof.
  induction l as [|y l IH]; [done|]. intros _ Hl.
  apply Forall_cons in Hl as [Hy Hl]. cbn [foldr].
  destruct l as [|z l].
  - cbn. rewrite Z.min_l by lia. split; [left|].
    intros x Hx. apply list_elem_of_singleton in Hx. lia.
  - destruct IH as [Hin Hle]; [done|done|]. split.
    + destruct (Z.min_spec y (foldr Z.min d (z :: l))) as [[_ ->]|[_ ->]];
        [left | right; exact Hin].
    + intros x Hx. apply elem_of_cons in Hx as [->|Hx]; [lia|].
      specialize (Hle x Hx). lia.
Qed.

Lemma foldr_max_spec d (l : list Z) :
  l <> [] -> Forall (fun x => d <= x) l ->
  foldr Z.max d l ∈ l /\ forall x, x ∈ l -> x <= foldr Z.max d l.
Proof.
  induction l as [|y l IH]; [done|]. intros _ Hl.
  apply Forall_cons in Hl as [Hy Hl]. cbn [foldr].
  destruct l as [|z l].
  - cbn. rewrite Z.max_l by lia. split; [left|].
    intros x Hx. apply list_elem_of_singleton in Hx. lia.
  - destruct IH as [Hin Hle]; [done|done|]. split.
    + destruct (Z.max_spec y (foldr Z.max d (z :: l))) as [[_ ->]|[_ ->]];
        [right; exact Hin | left].
    + intros x Hx. apply elem_of_cons in Hx as [->|Hx]; [lia|].
      specialize (Hle x Hx). lia.
Qed.

(** C4. The merge of a non-empty list of maps whose statistics hold
    values of their C++ types. For every name that appears in some input
    map, the merged map has an entry whose [min] is the least of the
    per-map minima, whose [max] is the greatest of the per-map maxima,
    and whose [sum] and [count] are the sums of the per-map sums and
    counts (in the arithmetic of [int64_t] and [int32_t], so exactly
    whenever the totals fit the fields); a name that appears in no map
    has no entry. Merging any permutation of the list gives the same
    merged map. *)
Theorem merge_results_spec (front : StatsMap) (rest : list StatsMap) :
  Forall well_typed_map (front :: rest) ->
  exists merged,
    merge_results (front :: rest) = Ok merged /\
    (forall city,
       ((exists m, m ∈ front :: rest /\ is_Some (m !! city)) <-> is_Some (merged !! city)) /\
       forall s, merged !! city = Some s ->
         let ss := stats_of city (front :: rest) in
         (exists t, t ∈ ss /\ Stats.min_ s = Stats.min_ t) /\
         (forall t, t ∈ ss -> Stats.min_ s <= Stats.min_ t) /\
         (exists t, t ∈ ss /\ Stats.max_ s = Stats.max_ t) /\
         (forall t, t ∈ ss -> Stats.max_ t <= Stats.max_ s) /\
         Stats.sum_ s = to_int64 (sum_Z (map Stats.sum_ ss)) /\
         Stats.count_ s = to_int32 (sum_Z (map Stats.count_ ss)) /\
         (int64_range (sum_Z (map Stats.sum_ ss)) ->
            Stats.sum_ s = sum_Z (map Stats.sum_ ss)) /\
         (int32_range (sum_Z (map Stats.count_ ss)) ->
            Stats.count_ s = sum_Z (map Stats.count_ ss))) /\
    (forall maps', maps' ≡ₚ front :: rest -> merge_results maps' = Ok merged).
Proof.
  intros Hwt.
  destruct (merge_results_lookup front rest Hwt) as (merged & Hm & Hlook).
  exists merged. split; [done|]. split.
  - intros city. specialize (Hlook city).
    pose proof (stats_of_well_typed city _ Hwt) as Hss.
    split.
    + rewrite Hlook. split.
      * intros (m & Hin & [s Hs]).
        assert (s ∈ stats_of city (front :: rest)) as Hel
          by (apply list_elem_of_omap; eauto).
        destruct (stats_of city (front :: rest)); [by apply elem_of_nil in Hel|eauto].
      * intros [s Hs].
        destruct (stats_of city (front :: rest)) as [|t ss] eqn:E; [done|].
        assert (t ∈ stats_of city (front :: rest)) as Hel by (rewrite E; left).
        apply list_elem_of_omap in Hel as (m & Hin & Hk). eauto.
    + intros s Hs ss. subst ss. rewrite Hlook in Hs.
      destruct (stats_of city (front :: rest)) as [|t ss] eqn:E; [done|].
      injection Hs as <-. rewrite <- E in *. clear Hlook.
      assert (Hne : stats_of city (front :: rest) <> []) by (by rewrite E).
      set (l := stats_of city (front :: rest)) in *.
      unfold combine_stats. cbn [Stats.min_ Stats.max_ Stats.sum_ Stats.count_].
      destruct (foldr_min_spec (2 ^ 15 - 1) (map Stats.min_ l)) as [Hmin1 Hmin2].
      { intros Hnil. by apply map_eq_nil in Hnil. }
      { apply Forall_forall. intros x Hx. apply list_elem_of_fmap in Hx as (u & -> & Hu).
        rewrite Forall_forall in Hss. destruct (Hss u Hu) as (Hr & _).
        unfold int16_range in Hr. lia. }
      destruct (foldr_max_spec (- 2 ^ 15) (map Stats.max_ l)) as [Hmax1 Hmax2].
      { intros Hnil. by apply map_eq_nil in Hnil. }
      { apply Forall_forall. intros x Hx. apply list_elem_of_fmap in Hx as (u & -> & Hu).
        rewrite Forall_forall in Hss. destruct (Hss u Hu) as (_ & Hr & _).
        unfold int16_range in Hr. lia. }
      repeat split.
      * apply list_elem_of_fmap in Hmin1 as (u & Hu1 & Hu2). eauto.
      * intros u Hu. apply Hmin2. apply list_elem_of_fmap. eauto.
      * apply list_elem_of_fmap in Hmax1 as (u & Hu1 & Hu2). eauto.
      * intros u Hu. apply Hmax2. apply list_elem_of_fmap. eauto.
      * apply to_int64_id.
      * apply to_int32_id.
  - intros maps' Hperm.
    destruct maps' as [|front' rest'].
    { by apply Permutation_nil_cons in Hperm. }
    assert (Hwt' : Forall well_typed_map (front' :: rest')) by (by rewrite Hperm).
    destruct (merge_results_lookup front' rest' Hwt') as (merged' & Hm' & Hlook').
    rewrite Hm'. f_equal. apply map_eq. intros k.
    rewrite Hlook, Hlook'.
    assert (Hp : stats_of k (front' :: rest') ≡ₚ stats_of k (front :: rest))
      by (unfold stats_of; by rewrite Hperm).
    destruct (stats_of k (front' :: rest')) as [|a l] eqn:E1.
    + apply Permutation_nil_l in Hp. by rewrite <- Hp.
    + destruct (stats_of k (front :: rest)) as [|b l'] eqn:E2.
      { by apply Permutation_nil_r in Hp. }
      f_equal. by apply combine_Permutation.
Qed.

(** [front()] on an empty list of maps is outside the defined behaviour. *)
Lemma merge_results_nil : merge_results [] = Undefined front_of_empty_span.
Proof. reflexivity. Qed.

Lemma well_typed_map_singleton (k : bytes) (s : Stats.t) :
  Stats.well_typed s -> well_typed_map {[ k := s ]}.
Proof. intros Hs city t Ht. apply lookup_singleton_Some in Ht as [_ <-]. done. Qed.

Lemma merge_results_spec_witness :
  exists merged,
    merge_results [{[ B "Hamburg" := Stats.mk 80 120 200 2 ]};
                   {[ B "Hamburg" := Stats.mk (-35) 10 (-25) 2 ]}] = Ok merged /\
    merge_results [{[ B "Hamburg" := Stats.mk (-35) 10 (-25) 2 ]};
                   {[ B "Hamburg" := Stats.mk 80 120 200 2 ]}] = Ok merged.
Proof.
  destruct (merge_results_spec {[ B "Hamburg" := Stats.mk 80 120 200 2 ]}
              [{[ B "Hamburg" := Stats.mk (-35) 10 (-25) 2 ]}])
    as (merged & Hm & _ & Hperm).
  - constructor; [|constructor; [|constructor]]; apply well_typed_map_singleton;
      unfold Stats.well_typed, int16_range, int32_range, int64_range; cbn; lia.
  - exists merged. split; [exact Hm|]. apply Hperm, perm_swap.
Defined.

Example merge_results_example :
  (merged ← merge_results [{[ B "Hamburg" := Stats.mk 80 120 200 2 ]};
                           {[ B "Hamburg" := Stats.mk (-35) 10 (-25) 2;
                              B "Palermo" := Stats.mk 5 5 5 1 ]}];
   Ok (sorted_entries merged))
  = Ok [(B "Hamburg", Stats.mk (-35) 120 175 4); (B "Palermo", Stats.mk 5 5 5 1)].
Proof. vm_compute. reflexivity. Qed.

(** ** Reporter *)

Lemma bytes_compare_Eq a : forall b, bytes_compare a b = Eq <-> a = b.
Proof.
  induction a as [|x a IH]; intros [|y b]; cbn; try (split; congruence).
  destruct (N.compare (Byte.to_N x) (Byte.to_N y)) eqn:E.
  - apply N.compare_eq in E.
    assert (x = y) as ->.
    { pose proof (Byte.of_to_N x) as Hx. rewrite E, Byte.of_to_N in Hx. congruence. }
    rewrite IH. split; congruence.
  - split; [discriminate|]. intros [= -> _]. by rewrite N.compare_refl in E.
  - split; [discriminate|]. intros [= -> _]. by rewrite N.compare_refl in E.
Qed.

Lemma bytes_compare_antisym a : forall b,
  bytes_compare b a = CompOpp (bytes_compare a b).
Proof.
  induction a as [|x a IH]; intros [|y b]; cbn; try done.
  rewrite (N.compare_antisym (Byte.to_N x) (Byte.to_N y)).
  destruct (N.compare (Byte.to_N x) (Byte.to_N y)); cbn; [apply IH|done|done].
Qed.

Lemma bytes_compare_Lt_trans a : forall b c,
  bytes_compare a b = Lt -> bytes_compare b c = Lt -> bytes_compare a c = Lt.
Proof.
  induction a as [|x a IH]; intros [|y b] [|z c]; cbn; try done.
  destruct (N.compare (Byte.to_N x) (Byte.to_N y)) eqn:Exy; try done;
    destruct (N.compare (Byte.to_N y) (Byte.to_N z)) eqn:Eyz; try done; intros Hab Hbc.
  - apply N.compare_eq in Exy, Eyz. rewrite Exy, Eyz, N.compare_refl. eauto.
  - apply N.compare_eq in Exy. by rewrite Exy, Eyz.
  - apply N.compare_eq in Eyz. by rewrite <- Eyz, Exy.
  - rewrite N.compare_lt_iff in Exy, Eyz.
    assert (Byte.to_N x < Byte.to_N z)%N as Hxz by lia.
    apply N.compare_lt_iff in Hxz. by rewrite Hxz.
Qed.

#[global] Instance key_le_total : Total key_le.
Proof.
  intros p q. unfold key_le. rewrite (bytes_compare_antisym p.1 q.1).
  destruct (bytes_compare p.1 q.1); cbn; [left|left|right]; congruence.
Qed.

#[global] Instance key_le_trans : Transitive key_le.
Proof.
  intros p q r. unfold key_le.
  destruct (bytes_compare p.1 q.1) eqn:Epq; [| |done]; intros _;
    destruct (bytes_compare q.1 r.1) eqn:Eqr; [| |done| | |done]; intros _.
  - apply bytes_compare_Eq in Epq, Eqr. rewrite Epq, Eqr.
    assert (bytes_compare r.1 r.1 = Eq) as -> by (by apply bytes_compare_Eq). done.
  - apply bytes_compare_Eq in Epq. rewrite Epq, Eqr. done.
  - apply bytes_compare_Eq in Eqr. rewrite <- Eqr, Epq. done.
  - rewrite (bytes_compare_Lt_trans _ _ _ Epq Eqr). done.
Qed.

Lemma sorted_entries_Permutation (cities : StatsMap) :
  sorted_entries cities ≡ₚ map_to_list cities.
Proof. apply merge_sort_Permutation. Qed.

(** The sorted entries are in strictly ascending key order: the keys of
    a map are distinct. *)
Lemma sorted_entries_ascending (cities : StatsMap) :
  StronglySorted (fun p q => bytes_lt p.1 q.1) (sorted_entries cities).
Proof.
  pose proof (StronglySorted_merge_sort key_le (map_to_list cities)) as Hs.
  assert (Hnd : NoDup (sorted_entries cities).*1).
  { rewrite sorted_entries_Permutation. apply NoDup_fst_map_to_list. }
  fold (sorted_entries cities) in Hs.
  induction Hs as [|p l Hl IH Hp]; [constructor|].
  cbn in Hnd. apply NoDup_cons in Hnd as [Hnotin Hnd].
  constructor; [by apply IH|].
  apply Forall_forall. intros q Hq.
  rewrite Forall_forall in Hp. specialize (Hp q Hq).
  unfold key_le, bytes_lt in *.
  destruct (bytes_compare p.1 q.1) eqn:E; [|done|done].
  apply bytes_compare_Eq in E. exfalso. apply Hnotin. rewrite E.
  apply list_elem_of_fmap. eauto.
Qed.

Lemma sorted_entries_nil (cities : StatsMap) :
  sorted_entries cities = [] <-> cities = ∅.
Proof.
  split.
  - intros H. apply map_to_list_empty_iff. apply Permutation_nil_r.
    rewrite <- H. by rewrite sorted_entries_Permutation.
  - intros ->. unfold sorted_entries. by rewrite map_to_list_empty.
Qed.

(** C5 fails as the specification words it: on a map with zero entries
    the reporter does not fail with an error of its own, it dereferences
    the [begin()] of an empty [std::map]. *)
Lemma dump_results_empty_not_error :
  ~ (forall (F : FloatOps) (cities : StatsMap),
       cities = ∅ -> exists e, dump_results cities = Throw e).
Proof.
  intros H. destruct (H exact_FloatOps ∅ eq_refl) as [e He].
  unfold dump_results in He.
  assert (sorted_entries ∅ = []) as Hnil by (by apply sorted_entries_nil).
  rewrite Hnil in He. discriminate.
Qed.

(** C5, as the code has it. On a map with zero entries the behaviour of
    [dump_results] is undefined (it formats the first element of the
    empty sorted map; the code has no error for this case). On any other
    map it writes [{name1=stats1, name2=stats2, ...}] and a line
    terminator, the entries being those of the map in strictly ascending
    byte-lexicographic order of their names; each [stats] is [min/avg/max]
    in the format ["{:.1f}"], where [min] and [max] are the fields
    divided by [10.0] and [avg] is [sum / 10.0 / count], all converted to
    [float]. *)
Theorem dump_results_spec {F : FloatOps} (cities : StatsMap) :
  (cities = ∅ -> dump_results cities = Undefined deref_end_iterator) /\
  (cities <> ∅ ->
     exists first rest,
       first :: rest ≡ₚ map_to_list cities /\
       StronglySorted (fun p q => bytes_lt p.1 q.1) (first :: rest) /\
       dump_results cities =
         Ok (B "{" ++ (first.1 ++ B "=" ++ format_Stats first.2)
               ++ concat (map (fun e => B ", " ++ e.1 ++ B "=" ++ format_Stats e.2) rest)
               ++ B "}" ++ [nl])) /\
  (forall s,
     format_Stats s =
       format_1f (float_of_double (double_div (double_of_int (Stats.min_ s)) ten))
       ++ B "/" ++
       format_1f (float_of_double
                    (double_div (double_div (double_of_int (Stats.sum_ s)) ten)
                       (double_of_int (Stats.count_ s))))
       ++ B "/" ++
       format_1f (float_of_double (double_div (double_of_int (Stats.max_ s)) ten))).
Proof.
  split; [|split].
  - intros ->. unfold dump_results.
    assert (sorted_entries ∅ = []) as -> by (by apply sorted_entries_nil). done.
  - intros Hne. unfold dump_results.
    pose proof (sorted_entries_Permutation cities) as Hp.
    pose proof (sorted_entries_ascending cities) as Hs.
    destruct (sorted_entries cities) as [|first rest] eqn:E.
    { by apply sorted_entries_nil in E. }
    exists first, rest. done.
  - done.
Qed.

Lemma dump_results_spec_witness :
  @dump_results exact_FloatOps
    {[ B "Palermo" := Stats.mk (-35) (-35) (-35) 1;
       B "Hamburg" := Stats.mk 80 120 200 2 ]}
  = Ok (B "{Hamburg=8.0/10.0/12.0, Palermo=-3.5/-3.5/-3.5}" ++ [nl]).
Proof.
  destruct (@dump_results_spec exact_FloatOps
              {[ B "Palermo" := Stats.mk (-35) (-35) (-35) 1;
                 B "Hamburg" := Stats.mk 80 120 200 2 ]})
    as (_ & H & _).
  destruct H as (first & rest & _ & _ & _).
  - intros E. apply (f_equal (fun m : StatsMap => m !! B "Palermo")) in E.
    rewrite lookup_insert_eq, lookup_empty in E. discriminate.
  - vm_compute. reflexivity.
Defined.

(** ** Worker count *)

Example stoi_8 : stoi (B "8") = Ok 8.
Proof. reflexivity. Qed.

Example stoi_prefix : stoi (B "  +16 threads") = Ok 16.
Proof. reflexivity. Qed.

Example stoi_negative : stoi (B "-2") = Ok (-2).
Proof. reflexivity. Qed.

Example stoi_too_large : stoi (B "4294967296") = Throw out_of_range.
Proof. reflexivity. Qed.

Example stoi_no_digits : stoi (B "abc") = Throw invalid_argument.
Proof. reflexivity. Qed.

Lemma stoi_digits_cases negative (s : bytes) :
  (exists n, stoi_digits negative s = Ok n /\ int32_range n) \/
  stoi_digits negative s = Throw invalid_argument \/
  stoi_digits negative s = Throw out_of_range.
Proof.
  unfold stoi_digits. destruct (span_while isdigit s) as [|d ds]; [by right; left|].
  set (v := if negative then _ else _).
  destruct (Z.leb_spec (- 2 ^ 31) v); destruct (Z.ltb_spec v (2 ^ 31)); cbn;
    [left; exists v; split; [done|unfold int32_range; lia] | by right; right ..].
Qed.

(** [stoi] either returns an [int] or throws one of its two exceptions. *)
Lemma stoi_cases (str : bytes) :
  (exists n, stoi str = Ok n /\ int32_range n) \/
  stoi str = Throw invalid_argument \/ stoi str = Throw out_of_range.
Proof.
  unfold stoi. destruct (skip_while isspace str) as [|c s]; [by right; left|].
  destruct c; apply stoi_digits_cases.
Qed.

(** C6 fails as the specification words it: with [NUM_THREADS] set to
    a text that is not a number the worker count is not the default,
    [std::stoi] throws. *)
Lemma number_of_threads_unparsable :
  number_of_threads (Some (B "abc")) 8 = Throw invalid_argument /\
  number_of_threads (Some (B "abc")) 8 <> number_of_threads None 8.
Proof. split; [reflexivity|discriminate]. Qed.

(** C6, as the code has it. When the variable is absent the worker count
    is the number of execution units of the host. When it is present its
    text goes through [std::stoi]: if that returns an integer, this
    integer is the worker count, used as it is; if it does not, the
    exception of [std::stoi] ([std::invalid_argument] or
    [std::out_of_range]) leaves [number_of_threads] and no default is
    taken. *)
Theorem number_of_threads_spec (env : option bytes) (hw : Z) :
  (env = None -> int32_range hw -> number_of_threads env hw = Ok hw) /\
  (forall s n, env = Some s -> stoi s = Ok n -> number_of_threads env hw = Ok n) /\
  (forall s, env = Some s -> (forall n, stoi s <> Ok n) ->
     number_of_threads env hw = Throw invalid_argument \/
     number_of_threads env hw = Throw out_of_range).
Proof.
  split; [|split].
  - intros -> Hhw. cbn. by rewrite to_int32_id.
  - intros s n -> Hs. exact Hs.
  - intros s -> Hs. cbn.
    destruct (stoi_cases s) as [(n & Hn & _)|H]; [by apply Hs in Hn|exact H].
Qed.

Lemma number_of_threads_spec_witness :
  number_of_threads None 8 = Ok 8 /\
  number_of_threads (Some (B "4")) 8 = Ok 4 /\
  (number_of_threads (Some (B "four")) 8 = Throw invalid_argument \/
   number_of_threads (Some (B "four")) 8 = Throw out_of_range).
Proof.
  split; [|split].
  - apply (number_of_threads_spec None 8); [reflexivity|unfold int32_range; lia].
  - apply (proj1 (proj2 (number_of_threads_spec (Some (B "4")) 8)) (B "4") 4);
      reflexivity.
  - apply (proj2 (proj2 (number_of_threads_spec (Some (B "four")) 8)) (B "four"));
      [reflexivity|]. intros n. discriminate.
Defined.

(** ** Command line *)

Example process_file_example :
  @process_file exact_FloatOps example_world (B "measurements.txt")
  = Ok (B "{Hamburg=8.0/10.0/12.0, Palermo=-3.5/-3.5/-3.5}" ++ [nl]).
Proof. vm_compute. reflexivity. Qed.

(** C9. With more than one positional argument ([argc > 2]) [main]
    writes the usage line to the error stream and returns
    [EXIT_FAILURE], which is not zero, without entering [process_file]
    and without output. With zero or one argument ([argc <= 2]) it
    enters [process_file] on the argument, or on [measurements.txt]
    when there is none, and when [process_file] returns, its output is
    the standard output and the exit code is [0]. *)
Theorem main_spec {F : FloatOps} (w : world) (argc : Z) (argv : list bytes) :
  (argc > 2 ->
     stderr (main w argc argv) = B "usage: main [ <input_file> ]" ++ [nl] /\
     stdout (main w argc argv) = [] /\
     processed (main w argc argv) = None /\
     exit (main w argc argv) = Ok EXIT_FAILURE /\
     EXIT_FAILURE <> 0) /\
  (argc <= 2 ->
     forall data_file,
       data_file = (if argc =? 2 then default [] (argv !! 1%nat)
                    else B "measurements.txt") ->
       processed (main w argc argv) = Some data_file /\
       stderr (main w argc argv) = [] /\
       forall out, process_file w data_file = Ok out ->
         stdout (main w argc argv) = out /\
         exit (main w argc argv) = Ok 0).
Proof.
  split.
  - intros Hgt. unfold main.
    destruct (Z.gtb_spec argc 2) as [_|?]; [|lia]. by cbn.
  - intros Hle data_file ->. unfold main.
    destruct (Z.gtb_spec argc 2) as [?|_]; [lia|].
    destruct (process_file w _) as [out| | |]; cbn;
      (split; [done|]); (split; [done|]); intros out' Hout; try discriminate.
    injection Hout as ->. done.
Qed.

Lemma main_spec_witness :
  exit (@main exact_FloatOps example_world 3 [B "main"; B "a.txt"; B "b.txt"])
    = Ok EXIT_FAILURE /\
  processed (@main exact_FloatOps example_world 3 [B "main"; B "a.txt"; B "b.txt"])
    = None /\
  exit (@main exact_FloatOps example_world 1 [B "main"]) = Ok 0 /\
  stdout (@main exact_FloatOps example_world 1 [B "main"])
    = B "{Hamburg=8.0/10.0/12.0, Palermo=-3.5/-3.5/-3.5}" ++ [nl].
Proof.
  destruct (@main_spec exact_FloatOps example_world 3 [B "main"; B "a.txt"; B "b.txt"])
    as [H3 _].
  destruct H3 as (_ & _ & Hp & He & _); [lia|].
  destruct (@main_spec exact_FloatOps example_world 1 [B "main"]) as [_ H1].
  destruct (H1 ltac:(lia) (B "measurements.txt") eq_refl) as (_ & _ & Hout).
  destruct (Hout _ process_file_example) as [Ho Hx].
  repeat split; assumption.
Defined.

(** ** The list of results handed to the merger *)

Lemma mapM_outcome_length {A B} (f : A -> outcome B) (l : list A) :
  forall r, mapM_outcome f l = Ok r -> length r = length l.
Proof.
  induction l as [|x l IH]; intros r; cbn [mapM_outcome].
  - by intros [= <-].
  - intros H. apply bind_Ok in H as (y & _ & H).
    apply bind_Ok in H as (ys & Hys & [= <-]). cbn. f_equal. by apply IH.
Qed.

Lemma split_loop_length data chunks size indices :
  forall segments r,
    split_loop data chunks size indices segments = Ok r ->
    length r = length segments.
Proof.
  induction indices as [|i indices IH]; intros segments r; cbn [split_loop].
  - by intros [= <-].
  - intros H. apply bind_Ok in H as (seg & _ & H).
    apply IH in H. by rewrite length_insert in H.
Qed.

(** [split_input] returns as many segments as it was asked for. *)
Lemma split_input_length data chunks segments :
  split_input data chunks = Ok segments -> length segments = Z.to_nat chunks.
Proof.
  unfold split_input.
  destruct (chunks <? 0); [done|]. destruct (chunks =? 0); [done|].
  intros H. apply split_loop_length in H. by rewrite length_replicate in H.
Qed.

Lemma not_front_failure_bind {A B} (m : outcome A) (f : A -> outcome B) :
  not_front_failure m -> (forall a, m = Ok a -> not_front_failure (f a)) ->
  not_front_failure (m ≫= f).
Proof.
  unfold not_front_failure. intros Hm Hf.
  destruct m as [a|e|u|]; cbn; [by apply Hf|discriminate| |discriminate].
  intros [= ->]. by apply Hm.
Qed.

Lemma sv_at_not_front s i : not_front_failure (sv_at s i).
Proof.
  unfold not_front_failure, sv_at.
  destruct (_ && _); [destruct (s !! _)|]; discriminate.
Qed.

Lemma sv_substr_not_front s pos count : not_front_failure (sv_substr s pos count).
Proof. unfold not_front_failure, sv_substr. destruct (_ <? _); discriminate. Qed.

Lemma segment_not_front data chunks size i :
  not_front_failure (segment data chunks size i).
Proof.
  unfold segment, segment_bounds.
  repeat (apply not_front_failure_bind; [|intros ? _]);
    repeat match goal with
    | |- not_front_failure (if ?b then _ else _) => destruct b
    | |- not_front_failure (_ ≫= _) => apply not_front_failure_bind; [|intros ? _]
    | |- not_front_failure (sv_at _ _) => apply sv_at_not_front
    | |- not_front_failure (sv_substr _ _ _) => apply sv_substr_not_front
    | |- not_front_failure (Ok _) => discriminate
    | |- not_front_failure (let '(_, _) := ?p in _) => destruct p
    end.
Qed.

Lemma split_input_not_front data chunks : not_front_failure (split_input data chunks).
Proof.
  unfold split_input.
  destruct (chunks <? 0); [discriminate|]. destruct (chunks =? 0); [discriminate|].
  generalize (replicate (Z.to_nat chunks) ([] : bytes)).
  induction (seqZ 0 chunks) as [|i indices IH]; intros segments; cbn [split_loop].
  - discriminate.
  - apply not_front_failure_bind; [apply segment_not_front|]. intros seg _. apply IH.
Qed.

Lemma get_temperature_not_front value : not_front_failure (get_temperature value).
Proof.
  unfold get_temperature.
  apply not_front_failure_bind; [apply sv_at_not_front|]. intros c0 _.
  destruct (decide (c0 = "-"%byte)); destruct (_ =? _);
    repeat (apply not_front_failure_bind; [apply sv_at_not_front|intros ? _]);
    discriminate.
Qed.

Lemma process_line_not_front line cities : not_front_failure (process_line line cities).
Proof.
  unfold process_line.
  apply not_front_failure_bind; [apply sv_substr_not_front|]. intros city _.
  apply not_front_failure_bind; [apply sv_substr_not_front|]. intros value _.
  apply not_front_failure_bind; [apply get_temperature_not_front|]. intros temp _.
  destruct (cities !! city); discriminate.
Qed.

Lemma getline_not_front r : not_front_failure (Reader.getline r).
Proof.
  unfold Reader.getline. destruct (_ =? _); [discriminate|].
  apply not_front_failure_bind; [apply sv_substr_not_front|]. discriminate.
Qed.

Lemma for_each_line_not_front {S : Type} (body : bytes -> S -> outcome S) fuel :
  (forall line s, not_front_failure (body line s)) ->
  forall reader s, not_front_failure (for_each_line fuel body reader s).
Proof.
  intros Hbody. induction fuel as [|fuel IH]; intros reader s; cbn [for_each_line].
  - discriminate.
  - apply not_front_failure_bind; [apply getline_not_front|].
    intros [[line reader']|] _; [|discriminate].
    apply not_front_failure_bind; [apply Hbody|]. intros s' _. apply IH.
Qed.

Lemma mapM_outcome_not_front {A B} (f : A -> outcome B) (l : list A) :
  (forall x, not_front_failure (f x)) -> not_front_failure (mapM_outcome f l).
Proof.
  intros Hf. induction l as [|x l IH]; cbn [mapM_outcome]; [discriminate|].
  apply not_front_failure_bind; [apply Hf|]. intros y _.
  apply not_front_failure_bind; [apply IH|]. discriminate.
Qed.

(** C10. For every worker count [chunks >= 1]: [split_input] returns
    exactly [chunks] segments whenever it returns, one result map is
    produced per segment, so the list handed to [merge_results] is not
    empty and [merge_results] returns; and the whole pipeline from the
    buffer to the merged map never ends in the failure of [front()] on
    an empty span. *)
Theorem merge_results_front_safe (data : bytes) (chunks : Z) :
  1 <= chunks ->
  (forall segments, split_input data chunks = Ok segments ->
     length segments = Z.to_nat chunks /\
     forall results, mapM_outcome process_segment segments = Ok results ->
       length results = Z.to_nat chunks /\ results <> [] /\
       exists merged, merge_results results = Ok merged) /\
  (segments ← split_input data chunks; process_all segments)
    <> Undefined front_of_empty_span.
Proof.
  intros Hchunks.
  assert (Hlen : forall segments, split_input data chunks = Ok segments ->
     length segments = Z.to_nat chunks /\
     forall results, mapM_outcome process_segment segments = Ok results ->
       length results = Z.to_nat chunks /\ results <> [] /\
       exists merged, merge_results results = Ok merged).
  { intros segments Hs. apply split_input_length in Hs. split; [done|].
    intros results Hr. apply mapM_outcome_length in Hr. rewrite Hs in Hr.
    split; [done|]. destruct results as [|front rest]; [cbn in Hr; lia|].
    split; [done|]. cbn. eauto. }
  split; [exact Hlen|].
  apply not_front_failure_bind; [apply split_input_not_front|].
  intros segments Hs. unfold process_all.
  apply not_front_failure_bind.
  { apply mapM_outcome_not_front. intros seg. unfold process_segment.
    apply for_each_line_not_front. apply process_line_not_front. }
  intros results Hr.
  destruct (Hlen segments Hs) as [_ H]. destruct (H results Hr) as (_ & _ & merged & ->).
  discriminate.
Qed.

Lemma merge_results_front_safe_witness :
  (segments ← split_input (B "a;1.0" ++ [nl] ++ B "b;2.0" ++ [nl]) 2;
   process_all segments) <> Undefined front_of_empty_span.
Proof.
  apply (merge_results_front_safe (B "a;1.0" ++ [nl] ++ B "b;2.0" ++ [nl]) 2). lia.
Defined.

Example process_all_example :
  (segments ← split_input (B "a;1.0" ++ [nl] ++ B "b;2.0" ++ [nl]) 2;
   merged ← process_all segments; Ok (sorted_entries merged))
  = Ok [(B "a", Stats.mk 10 10 10 1); (B "b", Stats.mk 20 20 20 1)].
Proof. vm_compute. reflexivity. Qed.

(** ** Segmenter *)

Lemma terminated_lookup (data : bytes) :
  terminated data ->
  0 < sv_size data /\ data !! Z.to_nat (sv_size data - 1) = Some nl.
Proof.
  unfold terminated, sv_size. intros H.
  rewrite last_lookup in H.
  destruct data as [|c data]; [done|]. cbn [length] in *.
  split; [lia|]. rewrite <- H. f_equal. lia.
Qed.

(** The adjustment of a boundary is [align]. *)
Lemma adjust_align (data : bytes) (p : Z) :
  valid_view data -> 1 <= p <= sv_size data ->
  (c ← sv_at data (to_size_t (p - 1));
   if decide (c <> nl) then Ok (to_size_t (sv_find data nl p + 1)) else Ok p)
  = Ok (align data p).
Proof.
  unfold valid_view, npos. intros Hv Hp. unfold align.
  rewrite (to_size_t_id (p - 1)) by lia.
  destruct (data !! Z.to_nat (p - 1)) as [c|] eqn:E.
  - rewrite (sv_at_Ok _ _ c) by (done || lia). cbn. by destruct (decide (c <> nl)).
  - apply lookup_ge_None in E. unfold sv_size in Hp. lia.
Qed.

(** [align] returns the least boundary at or after [p] that follows a
    terminator. *)
Lemma align_spec (data : bytes) (p : Z) :
  terminated data -> valid_view data -> 1 <= p <= sv_size data ->
  p <= align data p <= sv_size data /\
  data !! Z.to_nat (align data p - 1) = Some nl /\
  forall q, p <= q < align data p -> data !! Z.to_nat (q - 1) <> Some nl.
Proof.
  intros Ht Hv Hp. destruct (terminated_lookup data Ht) as [Hpos Hlast].
  unfold align.
  destruct (data !! Z.to_nat (p - 1)) as [c|] eqn:E.
  2:{ apply lookup_ge_None in E. unfold sv_size in Hp. lia. }
  destruct (decide (c <> nl)) as [Hc|Hc].
  2:{ assert (c = nl) as -> by (by destruct (decide (c = nl))).
      split; [lia|]. split; [done|]. intros q Hq. lia. }
  assert (Hlt : p < sv_size data).
  { destruct (decide (p = sv_size data)) as [->|]; [|lia]. congruence. }
  assert (Hin : nl ∈ drop (Z.to_nat p) data).
  { apply list_elem_of_lookup. exists (Z.to_nat (sv_size data - 1 - p)).
    rewrite lookup_drop. rewrite <- Hlast. f_equal. lia. }
  apply list_elem_of_split_l in Hin as (l & rest & Hdrop & Hl).
  assert (Hdata : data = take (Z.to_nat p) data ++ l ++ nl :: rest).
  { rewrite <- Hdrop. by rewrite take_drop. }
  assert (Hpre : sv_size (take (Z.to_nat p) data) = p).
  { unfold sv_size in *. rewrite length_take_le; lia. }
  assert (Hfind : sv_find data nl p = p + sv_size l).
  { pose proof (sv_find_found (take (Z.to_nat p) data) l rest nl Hl) as Hf.
    by rewrite <- Hdata, Hpre in Hf. }
  rewrite Hfind.
  assert (Hsize : sv_size data = p + sv_size l + 1 + sv_size rest).
  { apply (f_equal sv_size) in Hdata. unfold sv_size in *.
    rewrite !length_app in Hdata. cbn [length] in Hdata.
    rewrite length_take_le in Hdata; lia. }
  unfold valid_view, npos in Hv.
  assert (0 <= sv_size l /\ 0 <= sv_size rest) as [??] by (unfold sv_size; lia).
  rewrite to_size_t_id by lia.
  split; [lia|]. split.
  - rewrite Hdata. rewrite lookup_app_r; rewrite length_take_le; unfold sv_size in *; try lia.
    rewrite lookup_app_r by lia.
    replace (Z.to_nat (p + Z.of_nat (length l) + 1 - 1) - Z.to_nat p - length l)%nat
      with 0%nat by lia. done.
  - intros q Hq Hnl.
    destruct (decide (q = p)) as [->|Hne]; [congruence|].
    apply Hl. rewrite Hdata in Hnl.
    rewrite lookup_app_r in Hnl; rewrite length_take_le in *; unfold sv_size in *; try lia.
    rewrite lookup_app_l in Hnl by lia.
    by apply list_elem_of_lookup_2 in Hnl.
Qed.

Lemma align_mono (data : bytes) (p p' : Z) :
  terminated data -> valid_view data ->
  1 <= p -> p <= p' -> p' <= sv_size data ->
  align data p <= align data p'.
Proof.
  intros Ht Hv H1 H2 H3.
  destruct (align_spec data p Ht Hv ltac:(lia)) as (Hb & _ & Hmin).
  destruct (align_spec data p' Ht Hv ltac:(lia)) as (Hb' & Hnl' & _).
  destruct (Z.le_gt_cases (align data p) (align data p')) as [|Hgt]; [done|].
  exfalso. apply (Hmin (align data p')); [lia|done].
Qed.

Lemma align_end (data : bytes) :
  terminated data -> align data (sv_size data) = sv_size data.
Proof.
  intros Ht. destruct (terminated_lookup data Ht) as [_ Hlast].
  unfold align. rewrite Hlast. by destruct (decide (nl <> nl)).
Qed.

(** The hypotheses under which [split_input] reads no byte outside the
    buffer: the buffer ends with a terminator and its size is [chunks]
    times the segment size. *)
Section Aligned.
Variables (data : bytes) (chunks size : Z).
Hypothesis Hterm : terminated data.
Hypothesis Hsmall : sv_size data < 2 ^ 63.
Hypothesis Hchunks : 1 <= chunks.
Hypothesis Hsize : sv_size data = chunks * size.

Lemma aligned_size_pos : 1 <= size.
Proof using Hterm Hchunks Hsize. destruct (terminated_lookup data Hterm) as [Hpos _]. nia. Qed.

Lemma aligned_valid_view : valid_view data.
Proof using Hsmall. unfold valid_view, npos. lia. Qed.

Lemma aligned_boundary (k : Z) : 1 <= k <= chunks -> 1 <= k * size <= sv_size data.
Proof using Hterm Hchunks Hsize. pose proof aligned_size_pos. intros Hk. nia. Qed.

Lemma segment_start_spec (i : Z) :
  0 <= i < chunks ->
  i * size <= segment_start data size i <= sv_size data /\
  (segment_start data size i = 0 \/
   data !! Z.to_nat (segment_start data size i - 1) = Some nl).
Proof using Hterm Hsmall Hchunks Hsize.
  intros Hi. unfold segment_start. destruct (Z.gtb_spec i 0) as [Hpos|Hz].
  - destruct (align_spec data (i * size) Hterm aligned_valid_view) as (Hb & Hnl & _).
    { apply aligned_boundary. lia. }
    split; [lia|]. by right.
  - assert (i = 0) as -> by lia. pose proof aligned_size_pos.
    destruct (terminated_lookup data Hterm). split; [lia|]. left. lia.
Qed.

Lemma segment_end_spec (i : Z) :
  0 <= i < chunks ->
  (i + 1) * size <= segment_end data size i <= sv_size data /\
  data !! Z.to_nat (segment_end data size i - 1) = Some nl.
Proof using Hterm Hsmall Hchunks Hsize.
  intros Hi. unfold segment_end.
  destruct (align_spec data (i * size + size) Hterm aligned_valid_view) as (Hb & Hnl & _).
  { pose proof (aligned_boundary (i + 1)). lia. }
  split; [lia|done].
Qed.

Lemma segment_end_next (i : Z) :
  0 <= i -> segment_end data size i = segment_start data size (i + 1).
Proof.
  intros Hi. unfold segment_end, segment_start.
  destruct (Z.gtb_spec (i + 1) 0); [|lia]. f_equal. lia.
Qed.

Lemma segment_end_last : segment_end data size (chunks - 1) = sv_size data.
Proof using Hterm Hsize.
  unfold segment_end.
  replace ((chunks - 1) * size + size) with (sv_size data) by lia.
  by apply align_end.
Qed.

Lemma segment_start_le_end (i : Z) :
  0 <= i < chunks -> segment_start data size i <= segment_end data size i.
Proof using Hterm Hsmall Hchunks Hsize.
  intros Hi. unfold segment_start, segment_end.
  pose proof aligned_size_pos as Hs.
  pose proof (aligned_boundary (i + 1) ltac:(lia)) as Hb.
  destruct (Z.gtb_spec i 0) as [Hpos|Hz].
  - apply align_mono; [done|apply aligned_valid_view|nia|lia|lia].
  - assert (i = 0) as -> by lia.
    destruct (align_spec data (0 * size + size) Hterm aligned_valid_view); lia.
Qed.

(** The boundaries of segment [i] are computed without failure. *)
Lemma segment_bounds_aligned (i : Z) :
  0 <= i < chunks ->
  segment_bounds data chunks size i
  = Ok (segment_start data size i, segment_end data size i).
Proof using Hterm Hsmall Hchunks Hsize.
  intros Hi. unfold segment_bounds, segment_start, segment_end.
  pose proof aligned_size_pos as Hs.
  pose proof (aligned_boundary (i + 1) ltac:(lia)) as Hb.
  rewrite (to_size_t_id (i * size)) by nia.
  rewrite (to_size_t_id (i * size + size)) by lia.
  destruct (Z.ltb_spec i chunks) as [_|?]; [|lia].
  rewrite (adjust_align data (i * size + size)) by (apply aligned_valid_view || lia).
  destruct (Z.gtb_spec i 0) as [Hpos|Hz].
  - rewrite (adjust_align data (i * size))
      by (apply aligned_valid_view || (pose proof (aligned_boundary i); lia)).
    done.
  - done.
Qed.

Lemma sv_substr_slice (a b : Z) :
  0 <= a <= b -> b <= sv_size data ->
  sv_substr data a (to_size_t (b - a)) = Ok (slice data a b).
Proof using Hsmall.
  intros Ha Hb. unfold sv_substr, slice.
  destruct (Z.ltb_spec (sv_size data) a); [lia|].
  rewrite to_size_t_id by lia. by rewrite Z.min_l by lia.
Qed.

Lemma segment_aligned (i : Z) :
  0 <= i < chunks ->
  segment data chunks size i
  = Ok (slice data (segment_start data size i) (segment_end data size i)).
Proof using Hterm Hsmall Hchunks Hsize.
  intros Hi. unfold segment. rewrite segment_bounds_aligned by done. cbn.
  destruct (segment_start_spec i Hi) as [[??] _].
  destruct (segment_end_spec i Hi) as [[??] _].
  pose proof (segment_start_le_end i Hi). pose proof aligned_size_pos.
  apply sv_substr_slice; [nia|lia].
Qed.

(** The loop fills the slots [k, k + m) of the vector. *)
Lemma split_loop_aligned (m : nat) : forall (k : nat) (segments : list bytes),
  Z.of_nat (k + m) <= chunks -> (k + m <= length segments)%nat ->
  split_loop data chunks size (seqZ (Z.of_nat k) (Z.of_nat m)) segments
  = Ok (take k segments
        ++ map (fun i => slice data (segment_start data size i) (segment_end data size i))
             (seqZ (Z.of_nat k) (Z.of_nat m))
        ++ drop (k + m) segments).
Proof using Hterm Hsmall Hchunks Hsize.
  induction m as [|m IH]; intros k segments Hk Hlen.
  - assert (seqZ (Z.of_nat k) (Z.of_nat 0) = []) as -> by done.
    cbn [split_loop map app]. rewrite Nat.add_0_r. by rewrite take_drop.
  - rewrite seqZ_cons by lia. cbn [split_loop map].
    rewrite segment_aligned by lia. rewrite outcome_bind_Ok.
    replace (Z.succ (Z.of_nat k)) with (Z.of_nat (S k)) by lia.
    replace (Z.pred (Z.of_nat (S m))) with (Z.of_nat m) by lia.
    rewrite IH by (rewrite ?length_insert; lia). f_equal.
    rewrite Nat2Z.id.
    rewrite (take_S_r _ k (slice data (segment_start data size (Z.of_nat k))
                             (segment_end data size (Z.of_nat k))))
      by (apply list_lookup_insert_eq; lia).
    rewrite take_insert_ge by lia.
    rewrite <- app_assoc. cbn [app]. do 3 f_equal.
    replace (S k + m)%nat with (k + S m)%nat by lia.
    rewrite drop_insert_lt by lia. done.
Qed.

Lemma slice_last (a b : Z) :
  0 <= a < b -> b <= sv_size data ->
  last (slice data a b) = data !! Z.to_nat (b - 1).
Proof.
  intros Ha Hb. unfold slice, sv_size in *. rewrite last_lookup.
  rewrite length_take_le by (rewrite length_drop; lia).
  rewrite lookup_take_lt by lia. rewrite lookup_drop. f_equal. lia.
Qed.

Lemma slice_take (a b : Z) :
  0 <= a <= b ->
  take (Z.to_nat a) data ++ slice data a b = take (Z.to_nat b) data.
Proof.
  intros Ha. unfold slice. rewrite take_take_drop. f_equal. lia.
Qed.

(** A segment is empty or ends with a terminator. *)
Lemma segment_terminated (i : Z) :
  0 <= i < chunks ->
  slice data (segment_start data size i) (segment_end data size i) = [] \/
  terminated (slice data (segment_start data size i) (segment_end data size i)).
Proof using Hterm Hsmall Hchunks Hsize.
  intros Hi.
  destruct (segment_start_spec i Hi) as [[Hs1 Hs2] _].
  destruct (segment_end_spec i Hi) as [[He1 He2] Hnl].
  pose proof (segment_start_le_end i Hi) as Hle. pose proof aligned_size_pos.
  destruct (decide (segment_start data size i = segment_end data size i)) as [E|E].
  - left. unfold slice. rewrite E, Z.sub_diag. done.
  - right. unfold terminated. rewrite slice_last by nia. done.
Qed.

(** The segments before [k] are the buffer up to the start of [k]. *)
Lemma concat_segments_before (k : nat) :
  Z.of_nat k < chunks ->
  concat (map (fun i => slice data (segment_start data size i) (segment_end data size i))
            (seqZ 0 (Z.of_nat k)))
  = take (Z.to_nat (segment_start data size (Z.of_nat k))) data.
Proof using Hterm Hsmall Hchunks Hsize.
  induction k as [|k IH]; intros Hk.
  - done.
  - rewrite seqZ_S, map_app, concat_app, IH by lia. cbn [map concat].
    rewrite app_nil_r, Z.add_0_l.
    destruct (segment_start_spec (Z.of_nat k) ltac:(lia)) as [[Hs1 Hs2] _].
    pose proof (segment_start_le_end (Z.of_nat k) ltac:(lia)). pose proof aligned_size_pos.
    rewrite slice_take by nia.
    rewrite segment_end_next by lia. do 3 f_equal. lia.
Qed.

Lemma concat_segments :
  concat (map (fun i => slice data (segment_start data size i) (segment_end data size i))
            (seqZ 0 chunks))
  = data.
Proof using Hterm Hsmall Hchunks Hsize.
  replace chunks with (Z.of_nat (S (Z.to_nat (chunks - 1)))) at 1 by lia.
  rewrite seqZ_S, map_app, concat_app, concat_segments_before by lia.
  cbn [map concat]. rewrite app_nil_r, Z.add_0_l.
  replace (Z.of_nat (Z.to_nat (chunks - 1))) with (chunks - 1) by lia.
  destruct (segment_start_spec (chunks - 1) ltac:(lia)) as [[Hs1 Hs2] _].
  pose proof (segment_start_le_end (chunks - 1) ltac:(lia)). pose proof aligned_size_pos.
  rewrite slice_take by nia. rewrite segment_end_last.
  apply take_ge. unfold sv_size. lia.
Qed.

End Aligned.

(** The segments [split_input] returns when the buffer ends with a
    terminator and its size is a multiple of the worker count. *)
Lemma split_input_aligned (data : bytes) (chunks size : Z) :
  terminated data -> sv_size data < 2 ^ 63 -> 1 <= chunks ->
  sv_size data = chunks * size ->
  split_input data chunks
  = Ok (map (fun i => slice data (segment_start data size i) (segment_end data size i))
          (seqZ 0 chunks)).
Proof.
  intros Hterm Hsmall Hchunks Hsize.
  pose proof (aligned_size_pos data chunks size Hterm Hchunks Hsize) as Hpos.
  unfold split_input.
  destruct (Z.ltb_spec chunks 0); [lia|]. destruct (Z.eqb_spec chunks 0); [lia|].
  assert (to_size_t (sv_size data + chunks - 1) / chunks = size) as ->.
  { rewrite to_size_t_id by nia.
    replace (sv_size data + chunks - 1) with (size * chunks + (chunks - 1)) by lia.
    rewrite Z.div_add_l by lia. rewrite Z.div_small by lia. lia. }
  pose proof (split_loop_aligned data chunks size Hterm Hsmall Hchunks Hsize
                (Z.to_nat chunks) 0 (replicate (Z.to_nat chunks) [])) as Hloop.
  cbn [Nat.add take app] in Hloop. change (Z.of_nat 0) with 0 in Hloop.
  rewrite Z2Nat.id in Hloop by lia.
  rewrite Hloop by (rewrite ?length_replicate; lia).
  rewrite drop_ge by (rewrite length_replicate; lia). by rewrite app_nil_r.
Qed.

(** X15. The segmenter on the inputs for which it stays inside the buffer: a
    buffer that ends with a line terminator and whose size is a multiple
    of the worker count. It returns exactly [chunks] segments, their
    concatenation is the buffer, every segment is empty or ends with a
    terminator (no line is split), every start is [0] or follows a
    terminator, every end is the start of the next segment and the last
    end is the size of the buffer. *)
Theorem split_input_partition (data : bytes) (chunks : Z) :
  terminated data -> sv_size data < 2 ^ 63 -> 1 <= chunks ->
  (chunks | sv_size data) ->
  exists segments,
    split_input data chunks = Ok segments /\
    length segments = Z.to_nat chunks /\
    concat segments = data /\
    Forall (fun s => s = [] \/ terminated s) segments /\
    (forall i, 0 <= i < chunks ->
       segments !! Z.to_nat i
         = Some (slice data (segment_start data (sv_size data / chunks) i)
                   (segment_end data (sv_size data / chunks) i)) /\
       segment_start data (sv_size data / chunks) i
         <= segment_end data (sv_size data / chunks) i <= sv_size data /\
       (segment_start data (sv_size data / chunks) i = 0 \/
        data !! Z.to_nat (segment_start data (sv_size data / chunks) i - 1) = Some nl) /\
       (i + 1 < chunks ->
        segment_end data (sv_size data / chunks) i
          = segment_start data (sv_size data / chunks) (i + 1))) /\
    segment_end data (sv_size data / chunks) (chunks - 1) = sv_size data.
Proof.
  intros Hterm Hsmall Hchunks [size Hdiv].
  assert (Hsize : sv_size data = chunks * size) by lia.
  assert (Hq : sv_size data / chunks = size).
  { rewrite Hdiv. apply Z.div_mul. lia. }
  rewrite Hq.
  set (piece := fun i => slice data (segment_start data size i) (segment_end data size i)).
  exists (map piece (seqZ 0 chunks)).
  split; [by apply split_input_aligned|]. split; [by rewrite length_map, length_seqZ|].
  split; [by apply concat_segments|]. split; [|split].
  - apply Forall_forall. intros s Hs. apply list_elem_of_fmap in Hs as (i & -> & Hi).
    apply list_elem_of_lookup in Hi as (j & Hj). apply lookup_seqZ in Hj as [-> Hj].
    apply (segment_terminated data chunks size); auto; lia.
  - intros i Hi. split; [|split; [|split]].
    + rewrite list_lookup_fmap, lookup_seqZ_lt by lia. cbn [fmap option_fmap option_map].
      rewrite Z.add_0_l, Z2Nat.id by lia. done.
    + pose proof (segment_start_le_end data chunks size Hterm Hsmall Hchunks Hsize i Hi).
      destruct (segment_end_spec data chunks size Hterm Hsmall Hchunks Hsize i Hi)
        as [[??] _]. lia.
    + apply (segment_start_spec data chunks size); auto.
    + intros _. apply segment_end_next. lia.
  - by apply segment_end_last.
Qed.

Lemma split_input_partition_witness :
  exists segments,
    split_input (B "ab;1.0" ++ [nl] ++ B "c;2.0" ++ [nl] ++ B "d" ++ [nl]) 3 = Ok segments /\
    concat segments = B "ab;1.0" ++ [nl] ++ B "c;2.0" ++ [nl] ++ B "d" ++ [nl].
Proof.
  destruct (split_input_partition
              (B "ab;1.0" ++ [nl] ++ B "c;2.0" ++ [nl] ++ B "d" ++ [nl]) 3)
    as (segments & Hs & _ & Hc & _).
  - reflexivity.
  - vm_compute. reflexivity.
  - lia.
  - exists 5. reflexivity.
  - exists segments. split; assumption.
Defined.

Example split_input_example :
  split_input (B "ab;1.0" ++ [nl] ++ B "c;2.0" ++ [nl] ++ B "d" ++ [nl]) 3
  = Ok [B "ab;1.0" ++ [nl]; B "c;2.0" ++ [nl]; B "d" ++ [nl]].
Proof. vm_compute. reflexivity. Qed.

(** ** Aggregation and re-partitioning *)

Lemma to_int16_range z : int16_range (to_int16 z).
Proof.
  unfold int16_range, to_int16.
  pose proof (Z.mod_pos_bound (z + 2 ^ 15) (2 ^ 16)). lia.
Qed.

Lemma get_temperature_range value temp :
  get_temperature value = Ok temp -> int16_range temp.
Proof.
  unfold get_temperature. intros H.
  apply bind_Ok in H as (c0 & _ & H).
  destruct (decide (c0 = "-"%byte)); destruct (_ =? _);
    repeat (apply bind_Ok in H as (? & _ & H));
    injection H as <-; apply to_int16_range.
Qed.

Lemma parse_line_range line r : parse_line line = Ok r -> int16_range r.2.
Proof.
  unfold parse_line. intros H.
  apply bind_Ok in H as (city & _ & H). apply bind_Ok in H as (value & _ & H).
  apply bind_Ok in H as (temp & Ht & H). injection H as <-.
  by apply get_temperature_range in Ht.
Qed.

Lemma process_line_parse (line : bytes) (cities : StatsMap) :
  process_line line cities = (r ← parse_line line; Ok (record_update cities r)).
Proof.
  unfold process_line, parse_line, record_update.
  destruct (sv_substr line 0 _) as [city| | |]; cbn; try done.
  destruct (sv_substr line _ npos) as [value| | |]; cbn; try done.
  destruct (get_temperature value) as [temp| | |]; cbn; try done.
  destruct (cities !! city) as [stats|] eqn:E; cbn; [done|].
  by rewrite insert_insert_eq.
Qed.

Lemma fold_lines_records (lines : list bytes) : forall cities : StatsMap,
  fold_lines process_line lines cities
  = (rs ← mapM_outcome parse_line lines; Ok (foldl record_update cities rs)).
Proof.
  induction lines as [|line lines IH]; intros cities; cbn [fold_lines mapM_outcome]; [done|].
  rewrite process_line_parse.
  destruct (parse_line line) as [r| | |]; cbn; try done.
  rewrite IH. by destruct (mapM_outcome parse_line lines).
Qed.

Lemma mapM_outcome_app {A B} (f : A -> outcome B) (l k : list A) :
  mapM_outcome f (l ++ k)
  = (a ← mapM_outcome f l; b ← mapM_outcome f k; Ok (a ++ b)).
Proof.
  induction l as [|x l IH]; cbn [app mapM_outcome].
  - cbn. by destruct (mapM_outcome f k).
  - destruct (f x) as [y| | |]; cbn; try done. rewrite IH.
    destruct (mapM_outcome f l); cbn; try done.
    by destruct (mapM_outcome f k).
Qed.

Lemma mapM_outcome_Forall {A B} (f : A -> outcome B) (P : B -> Prop) (l : list A) :
  (forall x y, f x = Ok y -> P y) ->
  forall r, mapM_outcome f l = Ok r -> Forall P r.
Proof.
  intros Hf. induction l as [|x l IH]; intros r; cbn [mapM_outcome].
  - intros [= <-]. constructor.
  - intros H. apply bind_Ok in H as (y & Hy & H).
    apply bind_Ok in H as (ys & Hys & [= <-]). constructor; eauto.
Qed.

(** The scan of a segment that is the text of terminated lines. *)
Lemma process_segment_lines (lines : list bytes) :
  Forall (fun l => nl ∉ l) lines -> valid_view (join_lines lines) ->
  process_segment (join_lines lines) = fold_lines process_line lines make_map.
Proof.
  intros Hl Hv. unfold process_segment, Reader.new.
  pose proof (for_each_line_fold process_line lines [] [] make_map
                (Datatypes.S (length (join_lines lines))) Hl) as H.
  cbn [app] in H. rewrite app_nil_r in H. change (sv_size []) with 0 in H.
  apply H; [apply not_elem_of_nil|done|].
  pose proof (length_join_lines lines). lia.
Qed.

(** The scan of any segment is the fold over its terminated lines; in
    particular the fuel suffices. *)
Lemma process_segment_fold (data : bytes) :
  valid_view data ->
  process_segment data = fold_lines process_line (split_lines data).1 make_map.
Proof.
  intros Hv. destruct (split_lines_spec data) as (Hd & Hl & Ht).
  unfold process_segment, Reader.new.
  pose proof (for_each_line_fold process_line (split_lines data).1 [] (split_lines data).2
                make_map (Datatypes.S (length data)) Hl Ht) as H.
  cbn [app] in H. rewrite <- Hd in H. change (sv_size []) with 0 in H.
  apply H; [done|].
  apply (f_equal length) in Hd. rewrite length_app in Hd.
  pose proof (length_join_lines (split_lines data).1). lia.
Qed.

Lemma fold_lines_terminates {S : Type} (body : bytes -> S -> outcome S) lines :
  (forall line s, body line s <> OutOfFuel) ->
  forall s, fold_lines body lines s <> OutOfFuel.
Proof.
  intros Hb. induction lines as [|l lines IH]; intros s; cbn [fold_lines]; [done|].
  destruct (body l s) as [s'| | |] eqn:E; cbn; try done. by apply Hb in E.
Qed.

Lemma process_segment_terminates (data : bytes) :
  valid_view data -> process_segment data <> OutOfFuel.
Proof.
  intros Hv. rewrite process_segment_fold by done.
  apply fold_lines_terminates. intros line s. rewrite process_line_parse.
  unfold parse_line.
  destruct (sv_substr line 0 _) as [city| | |] eqn:E1; cbn; try done.
  { destruct (sv_substr line _ npos) as [value| | |] eqn:E2; cbn; try done.
    - unfold get_temperature, sv_at.
      repeat (match goal with
              | |- context [if ?b then _ else _] => destruct b
              | |- context [match ?l !! ?i with _ => _ end] => destruct (l !! i)
              end; cbn; try done).
    - unfold sv_substr in E2. by destruct (_ <? _).  }
  unfold sv_substr in E1. by destruct (_ <? _).
Qed.

Lemma record_update_lookup (cities : StatsMap) (r : bytes * Z) (k : bytes) :
  record_update cities r !! k =
  if decide (r.1 = k) then Some (Stats.update (default Stats.init (cities !! k)) r.2)
  else cities !! k.
Proof.
  unfold record_update. destruct (decide (r.1 = k)) as [<-|Hne].
  - by rewrite lookup_insert_eq.
  - by rewrite lookup_insert_ne.
Qed.

Lemma foldl_record_update_lookup (rs : list (bytes * Z)) (k : bytes) :
  forall cities : StatsMap,
  foldl record_update cities rs !! k = apply_temps (cities !! k) (temps_of k rs).
Proof.
  induction rs as [|r rs IH]; intros cities; [done|].
  cbn [foldl]. rewrite IH, record_update_lookup.
  unfold temps_of. cbn [omap list_omap]. fold (temps_of k rs).
  by destruct (decide (r.1 = k)).
Qed.

Lemma apply_temps_cons (o : option Stats.t) t ts :
  apply_temps o (t :: ts)
  = Some (foldl Stats.update (Stats.update (default Stats.init o) t) ts).
Proof.
  unfold apply_temps. cbn [foldl].
  generalize (Stats.update (default Stats.init o) t). clear.
  induction ts as [|t ts IH]; intros s; cbn [foldl default]; [done|]. apply IH.
Qed.

Lemma Stats_merge_update a s t :
  Stats.merge a (Stats.update s t) = Stats.update (Stats.merge a s) t.
Proof.
  unfold Stats.merge, Stats.update. cbn [Stats.min_ Stats.max_ Stats.sum_ Stats.count_].
  f_equal; try lia.
  - rewrite to_int64_add_r, to_int64_add_l. f_equal. lia.
  - rewrite to_int32_add_r, to_int32_add_l. f_equal. lia.
Qed.

Lemma Stats_merge_init_r a : Stats.well_typed a -> Stats.merge a Stats.init = a.
Proof.
  destruct a as [mn mx sm ct]. unfold Stats.well_typed, Stats.merge, Stats.init, int16_range.
  cbn [Stats.min_ Stats.max_ Stats.sum_ Stats.count_]. intros (?&?&?&?).
  rewrite (to_int64_id (sm + 0)), (to_int32_id (ct + 0)) by (by rewrite Z.add_0_r).
  f_equal; lia.
Qed.

Lemma Stats_merge_foldl_update a ts : forall s,
  Stats.merge a (foldl Stats.update s ts) = foldl Stats.update (Stats.merge a s) ts.
Proof.
  induction ts as [|t ts IH]; intros s; cbn [foldl]; [done|].
  by rewrite IH, Stats_merge_update.
Qed.

Lemma Stats_init_well_typed : Stats.well_typed Stats.init.
Proof.
  unfold Stats.well_typed, Stats.init, int16_range, int32_range, int64_range. cbn. lia.
Qed.

Lemma Stats_update_well_typed s t :
  Stats.well_typed s -> int16_range t -> Stats.well_typed (Stats.update s t).
Proof.
  unfold Stats.well_typed, Stats.update, int16_range.
  cbn [Stats.min_ Stats.max_ Stats.sum_ Stats.count_]. intros (?&?&?&?) ?.
  repeat split; try lia; try apply to_int64_range; try apply to_int32_range.
Qed.

Lemma record_update_well_typed (cities : StatsMap) (r : bytes * Z) :
  well_typed_map cities -> int16_range r.2 -> well_typed_map (record_update cities r).
Proof.
  intros Hc Hr k s. rewrite record_update_lookup.
  destruct (decide (r.1 = k)) as [_|_]; [|apply Hc].
  intros [= <-]. apply Stats_update_well_typed; [|done].
  destruct (cities !! k) as [s|] eqn:E; cbn; [by apply (Hc k)|apply Stats_init_well_typed].
Qed.

Lemma foldl_record_update_well_typed (rs : list (bytes * Z)) :
  Forall (fun r => int16_range r.2) rs ->
  forall cities : StatsMap,
    well_typed_map cities -> well_typed_map (foldl record_update cities rs).
Proof.
  induction 1 as [|r rs Hr _ IH]; intros cities Hc; [done|].
  cbn [foldl]. apply IH. by apply record_update_well_typed.
Qed.

Lemma well_typed_map_empty : well_typed_map ∅.
Proof. intros k s. by rewrite lookup_empty. Qed.

(** Merging the map of a segment into the accumulator is applying the
    records of the segment to the accumulator. *)
Lemma merge_segment (acc : StatsMap) (rs : list (bytes * Z)) :
  well_typed_map acc ->
  map_fold merge_city acc (foldl record_update ∅ rs) = foldl record_update acc rs.
Proof.
  intros Hacc. apply map_eq. intros k.
  rewrite map_fold_merge_city_lookup, !foldl_record_update_lookup, lookup_empty.
  destruct (temps_of k rs) as [|t ts]; [done|].
  rewrite !apply_temps_cons. cbn [default]. f_equal.
  rewrite Stats_merge_foldl_update, Stats_merge_update. do 2 f_equal.
  apply Stats_merge_init_r.
  destruct (acc !! k) as [s|] eqn:E; cbn; [by apply (Hacc k)|apply Stats_init_well_typed].
Qed.

Lemma merge_segments (rss : list (list (bytes * Z))) :
  Forall (Forall (fun r => int16_range r.2)) rss ->
  forall acc : StatsMap, well_typed_map acc ->
  foldl (fun merged cities => map_fold merge_city merged cities) acc
    (map (foldl record_update ∅) rss)
  = foldl record_update acc (concat rss).
Proof.
  induction 1 as [|rs rss Hrs _ IH]; intros acc Hacc; [done|].
  cbn [map foldl concat]. rewrite merge_segment by done.
  rewrite IH by (by apply foldl_record_update_well_typed).
  by rewrite foldl_app.
Qed.

Lemma join_lines_concat (Ls : list (list bytes)) :
  join_lines (concat Ls) = concat (map join_lines Ls).
Proof.
  induction Ls as [|L Ls IH]; [done|]. cbn [concat map].
  by rewrite join_lines_app, IH.
Qed.

Lemma mapM_outcome_concat {A B} (f : A -> outcome B) (ls : list (list A)) :
  mapM_outcome f (concat ls)
  = (rss ← mapM_outcome (mapM_outcome f) ls; Ok (concat rss)).
Proof.
  induction ls as [|l ls IH]; [done|]. cbn [concat mapM_outcome].
  rewrite mapM_outcome_app, IH.
  destruct (mapM_outcome f l) as [a| | |]; cbn; try done.
  by destruct (mapM_outcome (mapM_outcome f) ls).
Qed.

Lemma valid_view_app_l (a b : bytes) : valid_view (a ++ b) -> valid_view a.
Proof. unfold valid_view, sv_size. rewrite length_app. lia. Qed.

Lemma valid_view_app_r (a b : bytes) : valid_view (a ++ b) -> valid_view b.
Proof. unfold valid_view, sv_size. rewrite length_app. lia. Qed.

Lemma mapM_process_segment (Ls : list (list bytes)) :
  Forall (Forall (fun l => nl ∉ l)) Ls ->
  valid_view (join_lines (concat Ls)) ->
  mapM_outcome process_segment (map join_lines Ls)
  = (rss ← mapM_outcome (mapM_outcome parse_line) Ls;
     Ok (map (foldl record_update ∅) rss)).
Proof.
  induction 1 as [|L Ls HL _ IH]; intros Hv; [done|].
  cbn [concat] in Hv. rewrite join_lines_app in Hv.
  cbn [map mapM_outcome].
  rewrite process_segment_lines by eauto using valid_view_app_l.
  rewrite fold_lines_records.
  destruct (mapM_outcome parse_line L) as [rs| | |]; cbn; try done.
  rewrite IH by eauto using valid_view_app_r.
  by destruct (mapM_outcome (mapM_outcome parse_line) Ls).
Qed.

(** Scanning line-aligned segments separately and merging the maps is
    scanning their concatenation. *)
Lemma process_all_lines (L : list bytes) (Ls : list (list bytes)) :
  Forall (Forall (fun l => nl ∉ l)) (L :: Ls) ->
  valid_view (join_lines (concat (L :: Ls))) ->
  process_all (map join_lines (L :: Ls)) = process_segment (join_lines (concat (L :: Ls))).
Proof.
  intros Hl Hv. unfold process_all.
  rewrite mapM_process_segment by done.
  rewrite process_segment_lines by (by try apply Forall_concat).
  rewrite fold_lines_records, mapM_outcome_concat.
  destruct (mapM_outcome (mapM_outcome parse_line) (L :: Ls)) as [rss| | |] eqn:E;
    cbn; try done.
  assert (Hr : Forall (Forall (fun r : bytes * Z => int16_range r.2)) rss).
  { eapply mapM_outcome_Forall; [|exact E]. intros l rs Hrs.
    eapply mapM_outcome_Forall; [|exact Hrs]. apply parse_line_range. }
  destruct rss as [|rs rss].
  { apply mapM_outcome_length in E. done. }
  apply Forall_cons in Hr as [Hrs Hrss].
  cbn [map merge_results concat]. f_equal.
  rewrite merge_segments; [|done|].
  - by rewrite foldl_app.
  - apply foldl_record_update_well_typed; [done|apply well_typed_map_empty].
Qed.

(** A segment that is empty or ends with a terminator is the text of
    its lines. *)
Lemma terminated_join_lines (s : bytes) :
  s = [] \/ terminated s ->
  s = join_lines (split_lines s).1 /\ Forall (fun l => nl ∉ l) (split_lines s).1.
Proof.
  intros Hs. destruct (split_lines_spec s) as (Hd & Hl & Ht).
  split; [|done].
  destruct (split_lines s).2 as [|c tail] eqn:E; [by rewrite app_nil_r in Hd|].
  exfalso. destruct Hs as [->|Hterm].
  - symmetry in Hd. by apply app_nil in Hd as [_ ?].
  - unfold terminated in Hterm. rewrite Hd, last_app in Hterm.
    destruct (last (c :: tail)) as [x|] eqn:El.
    + injection Hterm as ->. apply Ht. by apply last_Some_elem_of.
    + by apply last_None in El.
Qed.

(** Re-partitioning: for any non-empty list of segments each of which
    is empty or ends with a terminator, scanning the segments separately
    and merging gives what scanning their concatenation as one segment
    gives. *)
Lemma process_all_concat (segments : list bytes) :
  segments <> [] ->
  Forall (fun s => s = [] \/ terminated s) segments ->
  valid_view (concat segments) ->
  process_all segments = process_segment (concat segments).
Proof.
  intros Hne Hs Hv.
  set (Ls := map (fun s => (split_lines s).1) segments).
  assert (Hsegs : segments = map join_lines Ls).
  { unfold Ls. rewrite map_map. clear -Hs.
    induction Hs as [|s segments Hs _ IH]; [done|]. cbn [map].
    f_equal; [by apply terminated_join_lines|done]. }
  assert (HLs : Forall (Forall (fun l => nl ∉ l)) Ls).
  { unfold Ls. clear -Hs. induction Hs as [|s segments Hs _ IH]; cbn [map]; constructor;
      [by apply terminated_join_lines|done]. }
  rewrite Hsegs in Hv |- *. rewrite <- join_lines_concat in *.
  destruct Ls as [|L Ls']; [by destruct segments|].
  by apply process_all_lines.
Qed.

(** With the segmenter inside the buffer, the merged map is the map of
    the scan of the whole buffer as one segment. *)
Lemma aggregate_aligned (data : bytes) (chunks : Z) :
  terminated data -> sv_size data < 2 ^ 63 -> 1 <= chunks ->
  (chunks | sv_size data) ->
  aggregate data chunks = process_segment data.
Proof.
  intros Hterm Hsmall Hchunks [size Hdiv].
  assert (Hsize : sv_size data = chunks * size) by lia.
  assert (Hv : valid_view data) by (unfold valid_view, npos; lia).
  unfold aggregate. rewrite (split_input_aligned data chunks size) by done. cbn.
  pose proof (concat_segments data chunks size Hterm Hsmall Hchunks Hsize) as Hc.
  rewrite process_all_concat; [by rewrite Hc| | |by rewrite Hc].
  - intros Hnil. apply (f_equal length) in Hnil.
    rewrite length_map, length_seqZ in Hnil. cbn in Hnil. lia.
  - apply Forall_forall. intros s Hs. apply list_elem_of_fmap in Hs as (i & -> & Hi).
    apply list_elem_of_lookup in Hi as (j & Hj). apply lookup_seqZ in Hj as [-> Hj].
    apply (segment_terminated data chunks size); auto; lia.
Qed.

(** X17. For a buffer that ends with a terminator and whose size is a
    multiple of the worker count, the merged map is the map of the scan
    of the whole buffer as one segment, whatever the worker count: in
    particular [chunks] workers and one worker give the same map, and
    so the same report. *)
Theorem aggregate_repartition (data : bytes) (chunks : Z) :
  terminated data -> sv_size data < 2 ^ 63 -> 1 <= chunks ->
  (chunks | sv_size data) ->
  aggregate data chunks = process_segment data /\
  aggregate data chunks = aggregate data 1 /\
  aggregate data chunks <> OutOfFuel.
Proof.
  intros Hterm Hsmall Hchunks Hdiv.
  assert (Hv : valid_view data) by (unfold valid_view, npos; lia).
  rewrite (aggregate_aligned data chunks) by done.
  rewrite (aggregate_aligned data 1) by (done || lia || apply Z.divide_1_l).
  split; [done|]. split; [done|]. by apply process_segment_terminates.
Qed.

Lemma aggregate_repartition_witness :
  aggregate (B "abc;1.0" ++ [nl] ++ B "abc;2.0" ++ [nl]) 8
  = aggregate (B "abc;1.0" ++ [nl] ++ B "abc;2.0" ++ [nl]) 1.
Proof.
  apply (aggregate_repartition (B "abc;1.0" ++ [nl] ++ B "abc;2.0" ++ [nl]) 8).
  - reflexivity.
  - vm_compute. reflexivity.
  - lia.
  - exists 2. reflexivity.
Defined.

(** C1, at inputs on which the code fails. On the three bytes [a\nb]
    with one worker the end of the only segment is moved to
    [find('\n', 3) + 1], and [npos + 1] wraps around to [0]: the segment
    returned is empty, not the buffer, and its end is [0], not the size
    [3]. On an empty buffer, and on [a\n] with three workers, the loop
    subscripts the view outside its bounds ([data[end - 1]] with
    [end = 0] and with [end = 3]). *)
Theorem split_input_failing_inputs :
  split_input (B "a" ++ [nl] ++ B "b") 1 = Ok [[]] /\
  segment_bounds (B "a" ++ [nl] ++ B "b") 1 3 0 = Ok (0, 0) /\
  split_input [] 1 = Undefined subscript_out_of_bounds /\
  split_input (B "a" ++ [nl]) 3 = Undefined subscript_out_of_bounds.
Proof. repeat split; vm_compute; reflexivity. Qed.

(** C2, at inputs on which the code fails. The file
    [abc;1.0\ndefg;2.0] (16 bytes, no terminator after the last line):
    with one worker the only segment is empty and the merged map has no
    entry, so that the reporter dereferences the [begin()] of an empty
    map; with eight workers the merged map holds [abc] and the report
    is [{abc=1.0/1.0/1.0}]. The file [a;1.0\n] (6 bytes): one worker
    reports it, eight workers subscript the view outside its bounds. *)
Theorem aggregate_failing_inputs :
  (m ← aggregate (B "abc;1.0" ++ [nl] ++ B "defg;2.0") 1; Ok (sorted_entries m))
    = Ok [] /\
  (m ← aggregate (B "abc;1.0" ++ [nl] ++ B "defg;2.0") 8; Ok (sorted_entries m))
    = Ok [(B "abc", Stats.mk 10 10 10 1)] /\
  (m ← aggregate (B "abc;1.0" ++ [nl] ++ B "defg;2.0") 1; @dump_results exact_FloatOps m)
    = Undefined deref_end_iterator /\
  (m ← aggregate (B "abc;1.0" ++ [nl] ++ B "defg;2.0") 8; @dump_results exact_FloatOps m)
    = Ok (B "{abc=1.0/1.0/1.0}" ++ [nl]) /\
  (m ← aggregate (B "a;1.0" ++ [nl]) 1; Ok (sorted_entries m))
    = Ok [(B "a", Stats.mk 10 10 10 1)] /\
  aggregate (B "a;1.0" ++ [nl]) 8 = Undefined subscript_out_of_bounds.
Proof. repeat split; vm_compute; reflexivity. Qed.

(** An empty file never reaches the reporter: the mapping of a file of
    size zero fails, and [process_file] ends with that exception. *)
Lemma process_file_empty_file {F : FloatOps} (w : world) (path : bytes) :
  files w path = Some [] -> process_file w path = Throw runtime_error.
Proof. intros H. unfold process_file, MappedFile. by rewrite H. Qed.

(** The report of [process_file] is that of the merged map of
    [aggregate]. *)
Lemma process_file_aggregate {F : FloatOps} (w : world) (path : bytes) :
  process_file w path =
  (file ← MappedFile w path;
   chunks ← number_of_threads (env_NUM_THREADS w) (hardware_concurrency w);
   cities ← aggregate file chunks;
   dump_results cities).
Proof.
  unfold process_file, aggregate.
  destruct (MappedFile w path) as [file| | |]; cbn; try done.
  destruct (number_of_threads _ _) as [chunks| | |]; cbn; try done.
  by destruct (split_input file chunks).
Qed.

(** ** Hash of the keys *)

Lemma to_uint32_range z : 0 <= to_uint32 z < 2 ^ 32.
Proof. unfold to_uint32. apply Z.mod_pos_bound. lia. Qed.

Lemma lxor_uint32 x y : 0 <= x < 2 ^ 32 -> 0 <= y < 2 ^ 32 -> 0 <= Z.lxor x y < 2 ^ 32.
Proof.
  intros Hx Hy.
  assert (Hnn : 0 <= Z.lxor x y) by (apply Z.lxor_nonneg; lia).
  split; [done|].
  destruct (Z.eq_dec (Z.lxor x y) 0) as [->|Hne]; [lia|].
  apply Z.log2_lt_pow2; [lia|].
  pose proof (Z.log2_lxor x y ltac:(lia) ltac:(lia)) as Hl.
  assert (Z.log2 x < 32).
  { destruct (Z.eq_dec x 0) as [->|]; [cbn; lia|]. apply Z.log2_lt_pow2; lia. }
  assert (Z.log2 y < 32).
  { destruct (Z.eq_dec y 0) as [->|]; [cbn; lia|]. apply Z.log2_lt_pow2; lia. }
  lia.
Qed.

Lemma lxor_cancel_r x y z : Z.lxor x z = Z.lxor y z -> x = y.
Proof.
  intros H. apply (f_equal (fun t => Z.lxor t z)) in H.
  by rewrite !Z.lxor_assoc, Z.lxor_nilpotent, !Z.lxor_0_r in H.
Qed.

(** Multiplication by the prime is invertible modulo [2^32]. *)
Lemma mul_prime_cancel x y :
  0 <= x < 2 ^ 32 -> 0 <= y < 2 ^ 32 ->
  to_uint32 (x * StringHash.prime) = to_uint32 (y * StringHash.prime) -> x = y.
Proof.
  unfold to_uint32. intros Hx Hy H.
  assert (Hinv : forall t, 0 <= t < 2 ^ 32 ->
            ((t * StringHash.prime) mod 2 ^ 32 * 899433627) mod 2 ^ 32 = t).
  { intros t Ht. rewrite Z.mul_mod_idemp_l by lia.
    rewrite <- Z.mul_assoc.
    rewrite <- Z.mul_mod_idemp_r by lia.
    replace ((StringHash.prime * 899433627) mod 2 ^ 32) with 1 by reflexivity.
    rewrite Z.mul_1_r. apply Z.mod_small. lia. }
  rewrite <- (Hinv x Hx), <- (Hinv y Hy). by rewrite H.
Qed.

Lemma StringHash_step_range h c : 0 <= StringHash.step h c < 2 ^ 32.
Proof. apply to_uint32_range. Qed.

Lemma StringHash_step_inj h1 h2 c :
  0 <= h1 < 2 ^ 32 -> 0 <= h2 < 2 ^ 32 ->
  StringHash.step h1 c = StringHash.step h2 c -> h1 = h2.
Proof.
  intros H1 H2 H. unfold StringHash.step in H.
  pose proof (to_uint32_range (char_to_int c)) as Hc.
  apply mul_prime_cancel in H; [|by apply lxor_uint32..].
  by apply lxor_cancel_r in H.
Qed.

Lemma StringHash_foldl_range s : forall h,
  0 <= h < 2 ^ 32 -> 0 <= foldl StringHash.step h s < 2 ^ 32.
Proof.
  induction s as [|c s IH]; intros h Hh; cbn [foldl]; [done|].
  apply IH, StringHash_step_range.
Qed.

Lemma StringHash_foldl_inj s : forall h1 h2,
  0 <= h1 < 2 ^ 32 -> 0 <= h2 < 2 ^ 32 ->
  foldl StringHash.step h1 s = foldl StringHash.step h2 s -> h1 = h2.
Proof.
  induction s as [|c s IH]; intros h1 h2 H1 H2; cbn [foldl]; [done|].
  intros H. apply IH in H; [|apply StringHash_step_range..].
  by apply StringHash_step_inj in H.
Qed.

(** X1. The hash is an [unsigned] of 32 bits, and a common suffix does
    not change whether two keys collide: [a ++ s] and [b ++ s] have the
    same hash exactly when [a] and [b] have. In particular two keys of
    one byte never collide. *)
Theorem StringHash_suffix (a b s : bytes) :
  0 <= StringHash.hash a < 2 ^ 32 /\
  (StringHash.hash (a ++ s) = StringHash.hash (b ++ s)
   <-> StringHash.hash a = StringHash.hash b) /\
  (forall c d : byte, StringHash.hash [c] = StringHash.hash [d] -> c = d).
Proof.
  assert (Hoff : 0 <= StringHash.offset < 2 ^ 32) by (vm_compute; split; congruence).
  split; [by apply StringHash_foldl_range|]. split.
  - unfold StringHash.hash. rewrite !foldl_app. split.
    + apply StringHash_foldl_inj; by apply StringHash_foldl_range.
    + by intros ->.
  - intros c d H. unfold StringHash.hash in H. cbn [foldl] in H.
    unfold StringHash.step in H.
    pose proof (to_uint32_range (char_to_int c)) as Hc.
    pose proof (to_uint32_range (char_to_int d)) as Hd.
    apply mul_prime_cancel in H; [|by apply lxor_uint32..].
    rewrite !(Z.lxor_comm StringHash.offset) in H. apply lxor_cancel_r in H.
    unfold to_uint32, char_to_int in H.
    assert (Hb : forall x : byte, 0 <= Z.of_N (Byte.to_N x) < 256).
    { intros x. pose proof (Byte.to_N_bounded x). lia. }
    pose proof (Hb c). pose proof (Hb d).
    assert (forall t, 128 <= t < 256 -> (t - 256) mod 2 ^ 32 = t - 256 + 2 ^ 32) as Hm.
    { intros t Ht. symmetry. apply (Z.mod_unique_pos _ _ (-1)); lia. }
    assert (Z.of_N (Byte.to_N c) = Z.of_N (Byte.to_N d)) as E.
    { destruct (Z.ltb_spec (Z.of_N (Byte.to_N c)) 128);
        destruct (Z.ltb_spec (Z.of_N (Byte.to_N d)) 128);
        rewrite ?Hm in H by lia; rewrite ?Z.mod_small in H by lia; lia. }
    apply N2Z.inj in E.
    pose proof (Byte.of_to_N c) as Hc'. rewrite E, Byte.of_to_N in Hc'. congruence.
Qed.

(** The published FNV-1a test vectors for the empty text and for [a]. *)
Example StringHash_vectors :
  StringHash.hash [] = 0x811c9dc5 /\ StringHash.hash (B "a") = 0xe40c292c.
Proof. split; reflexivity. Qed.

(** ** More on the line scanner *)

(** X2. [getline] at any position inside the view. When no terminator
    is left after the position it returns [false] and changes nothing.
    Otherwise the bytes after the position are a line without terminator
    followed by a terminator: it stores that line, without the
    terminator, and moves the position just behind the terminator, which
    is still inside the view. It never throws and never subscripts
    outside the view. *)
Theorem getline_spec (data : bytes) (pos : Z) :
  valid_view data -> 0 <= pos <= sv_size data ->
  ((nl ∉ drop (Z.to_nat pos) data) /\
   Reader.getline {| Reader.data_ := data; Reader.pos_ := pos |} = Ok None) \/
  (exists line rest,
     drop (Z.to_nat pos) data = line ++ nl :: rest /\ (nl ∉ line) /\
     pos + sv_size line + 1 <= sv_size data /\
     Reader.getline {| Reader.data_ := data; Reader.pos_ := pos |}
     = Ok (Some (line, {| Reader.data_ := data;
                          Reader.pos_ := pos + sv_size line + 1 |}))).
Proof.
  intros Hv Hpos.
  assert (Hdata : data = take (Z.to_nat pos) data ++ drop (Z.to_nat pos) data)
    by (by rewrite take_drop).
  assert (Hpre : sv_size (take (Z.to_nat pos) data) = pos).
  { unfold sv_size in *. rewrite length_take_le; lia. }
  destruct (decide (nl ∈ drop (Z.to_nat pos) data)) as [Hin|Hnot].
  - right. apply list_elem_of_split_l in Hin as (line & rest & Hdrop & Hline).
    exists line, rest. split; [done|]. split; [done|].
    rewrite Hdrop in Hdata.
    assert (Hsize : sv_size data = pos + sv_size line + 1 + sv_size rest).
    { apply (f_equal sv_size) in Hdata. unfold sv_size in *.
      rewrite !length_app in Hdata. cbn [length] in Hdata.
      rewrite length_take_le in Hdata; lia. }
    split; [unfold sv_size in *; lia|].
    pose proof (getline_line (take (Z.to_nat pos) data) line rest Hline) as Hg.
    rewrite <- Hdata, Hpre in Hg. rewrite Hg by done. do 4 f_equal.
    unfold sv_size in *. rewrite !length_app. rewrite length_take_le by lia.
    cbn [length]. lia.
  - left. split; [done|].
    pose proof (getline_end (take (Z.to_nat pos) data) (drop (Z.to_nat pos) data) Hnot) as Hg.
    by rewrite <- Hdata, Hpre in Hg.
Qed.

Lemma getline_spec_witness :
  ((nl ∉ drop (Z.to_nat 3) (B "ab" ++ [nl] ++ B "cd" ++ [nl] ++ B "e")) /\
   Reader.getline {| Reader.data_ := B "ab" ++ [nl] ++ B "cd" ++ [nl] ++ B "e";
                     Reader.pos_ := 3 |} = Ok None) \/
  (exists line rest,
     drop (Z.to_nat 3) (B "ab" ++ [nl] ++ B "cd" ++ [nl] ++ B "e") = line ++ nl :: rest /\
     (nl ∉ line) /\
     3 + sv_size line + 1 <= sv_size (B "ab" ++ [nl] ++ B "cd" ++ [nl] ++ B "e") /\
     Reader.getline {| Reader.data_ := B "ab" ++ [nl] ++ B "cd" ++ [nl] ++ B "e";
                       Reader.pos_ := 3 |}
     = Ok (Some (line, {| Reader.data_ := B "ab" ++ [nl] ++ B "cd" ++ [nl] ++ B "e";
                          Reader.pos_ := 3 + sv_size line + 1 |}))).
Proof.
  apply (getline_spec (B "ab" ++ [nl] ++ B "cd" ++ [nl] ++ B "e") 3).
  - vm_compute. reflexivity.
  - vm_compute. split; discriminate.
Defined.

Example getline_example :
  Reader.getline {| Reader.data_ := B "ab" ++ [nl] ++ B "cd" ++ [nl] ++ B "e";
                    Reader.pos_ := 3 |}
  = Ok (Some (B "cd", {| Reader.data_ := B "ab" ++ [nl] ++ B "cd" ++ [nl] ++ B "e";
                         Reader.pos_ := 6 |})).
Proof. vm_compute. reflexivity. Qed.

Lemma filter_nl_free (l : bytes) : nl ∉ l -> filter (fun c => c = nl) l = [].
Proof.
  intros Hl. induction l as [|c l IH]; [done|].
  apply not_elem_of_cons in Hl as [Hc Hl].
  rewrite filter_cons. destruct (decide (c = nl)); [congruence|]. by apply IH.
Qed.

Lemma filter_nl_join_lines (lines : list bytes) :
  Forall (fun l => nl ∉ l) lines ->
  length (filter (fun c => c = nl) (join_lines lines)) = length lines.
Proof.
  induction 1 as [|l lines Hl _ IH]; [done|].
  rewrite join_lines_cons, filter_app, filter_nl_free by done.
  rewrite filter_cons. destruct (decide (nl = nl)); [|done].
  cbn [app length]. by rewrite IH.
Qed.

(** X3. The scanner returns on every segment and loses nothing but the
    unterminated rest: the segment is the text of the lines it yields,
    each followed by a terminator, and then a rest without terminator;
    no line holds a terminator, and there are as many lines as the
    segment has terminators. *)
Theorem scan_lines_roundtrip (data : bytes) :
  valid_view data ->
  exists lines tail,
    scan_lines data = Ok lines /\
    data = join_lines lines ++ tail /\
    Forall (fun l => nl ∉ l) lines /\ (nl ∉ tail) /\
    length lines = length (filter (fun c => c = nl) data).
Proof.
  intros Hv. destruct (split_lines_spec data) as (Hd & Hl & Ht).
  exists (split_lines data).1, (split_lines data).2.
  split; [by apply scan_lines_total|]. split; [done|]. split; [done|]. split; [done|].
  rewrite Hd at 2. rewrite filter_app, (filter_nl_free (split_lines data).2) by done.
  by rewrite app_nil_r, filter_nl_join_lines.
Qed.

Lemma scan_lines_roundtrip_witness :
  exists lines tail,
    scan_lines (B "ab" ++ [nl; nl] ++ B "c") = Ok lines /\
    B "ab" ++ [nl; nl] ++ B "c" = join_lines lines ++ tail /\
    length lines = 2%nat.
Proof.
  destruct (scan_lines_roundtrip (B "ab" ++ [nl; nl] ++ B "c"))
    as (lines & tail & Hs & Hd & _ & _ & Hn).
  - vm_compute. reflexivity.
  - exists lines, tail. split; [exact Hs|]. split; [exact Hd|]. exact Hn.
Defined.

(** ** More on the statistics *)

(** X4. [Stats::merge] is commutative and associative, the default
    [Stats] is its neutral element on values of the C++ types, and it
    keeps the fields inside their types: the statistics form a
    commutative monoid under [merge], so that partial results can be
    merged in any order and grouping. *)
Theorem Stats_merge_monoid :
  (forall a b, Stats.merge a b = Stats.merge b a) /\
  (forall a b c, Stats.merge (Stats.merge a b) c = Stats.merge a (Stats.merge b c)) /\
  (forall a, Stats.well_typed a ->
     Stats.merge Stats.init a = a /\ Stats.merge a Stats.init = a) /\
  (forall a b, Stats.well_typed a -> Stats.well_typed b ->
     Stats.well_typed (Stats.merge a b)).
Proof.
  split; [|split; [|split]].
  - intros a b. unfold Stats.merge. f_equal; try lia; f_equal; lia.
  - intros a b c. unfold Stats.merge.
    cbn [Stats.min_ Stats.max_ Stats.sum_ Stats.count_]. f_equal; try lia.
    all: rewrite ?to_int64_add_l, ?to_int64_add_r, ?to_int32_add_l, ?to_int32_add_r;
      f_equal; lia.
  - intros a Ha. split; [by apply Stats_merge_init_l|by apply Stats_merge_init_r].
  - apply Stats_merge_well_typed.
Qed.

(** X5. An update is a merge: updating with a value of type [int16_t]
    gives what merging with the statistics of that single value gives.
    This is what lets a worker's map stand for the lines it has read. *)
Theorem Stats_update_as_merge (s : Stats.t) (temp : Z) :
  int16_range temp ->
  Stats.update s temp = Stats.merge s (Stats.update Stats.init temp).
Proof.
  unfold int16_range. intros Ht. unfold Stats.update, Stats.merge, Stats.init.
  cbn [Stats.min_ Stats.max_ Stats.sum_ Stats.count_]. f_equal; try lia.
  all: rewrite ?to_int64_add_r, ?to_int32_add_r; f_equal; lia.
Qed.

Lemma Stats_update_as_merge_witness :
  Stats.update (Stats.mk 80 120 200 2) (-35)
  = Stats.merge (Stats.mk 80 120 200 2) (Stats.update Stats.init (-35)).
Proof. apply (Stats_update_as_merge (Stats.mk 80 120 200 2) (-35)). unfold int16_range. lia. Defined.

Lemma Stats_update_comm s x y :
  Stats.update (Stats.update s x) y = Stats.update (Stats.update s y) x.
Proof.
  unfold Stats.update. cbn [Stats.min_ Stats.max_ Stats.sum_ Stats.count_].
  f_equal; try lia.
  all: rewrite ?to_int64_add_l, ?to_int32_add_l; f_equal; lia.
Qed.

(** X6. The statistics of a name do not depend on the order in which
    its values are applied: updating with the values of a list and with
    those of any permutation of it gives the same [Stats], from any
    starting state. *)
Theorem Stats_update_order (vs ws : list Z) :
  vs ≡ₚ ws -> forall s, foldl Stats.update s vs = foldl Stats.update s ws.
Proof.
  induction 1 as [|x vs ws _ IH|x y vs|vs ws us _ IH1 _ IH2]; intros s; cbn [foldl].
  - done.
  - apply IH.
  - by rewrite Stats_update_comm.
  - by rewrite IH1, IH2.
Qed.

Lemma Stats_update_order_witness :
  foldl Stats.update Stats.init [120; 80; -35] = foldl Stats.update Stats.init [80; -35; 120].
Proof.
  apply (Stats_update_order [120; 80; -35] [80; -35; 120]).
  eapply perm_trans; [apply perm_swap|apply perm_skip, perm_swap].
Defined.

(** ** More on the value parser *)

Lemma char_to_int_range c : -128 <= char_to_int c <= 127.
Proof.
  unfold char_to_int. pose proof (Byte.to_N_bounded c).
  destruct (Z.ltb_spec (Z.of_N (Byte.to_N c)) 128); lia.
Qed.

Lemma get_temperature_unfold (value : bytes) :
  get_temperature value =
  match value with
  | [] => Undefined subscript_out_of_bounds
  | c :: rest =>
      if decide (c = "-"%byte) then convert_digits (-1) rest
      else convert_digits 1 value
  end.
Proof.
  destruct value as [|c rest]; [done|].
  unfold get_temperature. rewrite (sv_at_Ok _ 0 c) by done. rewrite outcome_bind_Ok.
  by destruct (decide (c = "-"%byte)).
Qed.

Lemma convert_digits_short sign (value : bytes) :
  (length value < 3)%nat -> convert_digits sign value = Undefined subscript_out_of_bounds.
Proof.
  intros Hlen. destruct value as [|a [|b [|c value]]]; [done|done|done|cbn in Hlen; lia].
Qed.

Lemma convert_digits_3 sign a b c :
  sign = 1 \/ sign = -1 ->
  convert_digits sign [a; b; c]
  = Ok (sign * (10 * char_to_int a + char_to_int c - 528)).
Proof.
  intros Hs. unfold convert_digits. change (sv_size [a; b; c] =? 3) with true.
  cbv iota. sv_at_step. change (char_to_int "0") with 48. f_equal.
  pose proof (char_to_int_range a). pose proof (char_to_int_range c).
  rewrite to_int16_id; [destruct Hs; subst; lia|unfold int16_range; destruct Hs; subst; lia].
Qed.

Lemma convert_digits_4 sign a b c d rest :
  sign = 1 \/ sign = -1 ->
  convert_digits sign (a :: b :: c :: d :: rest)
  = Ok (sign * (100 * char_to_int a + 10 * char_to_int b + char_to_int d - 5328)).
Proof.
  intros Hs. unfold convert_digits.
  assert ((sv_size (a :: b :: c :: d :: rest) =? 3) = false) as ->.
  { apply Z.eqb_neq. unfold sv_size. cbn [length]. lia. }
  sv_at_step. change (char_to_int "0") with 48. f_equal.
  pose proof (char_to_int_range a). pose proof (char_to_int_range b).
  pose proof (char_to_int_range d).
  rewrite to_int16_id; [destruct Hs; subst; lia|unfold int16_range; destruct Hs; subst; lia].
Qed.

Lemma convert_digits_long sign (value : bytes) :
  sign = 1 \/ sign = -1 -> (3 <= length value)%nat ->
  exists e, (-19536 <= e <= 12970) /\ convert_digits sign value = Ok (sign * e).
Proof.
  intros Hs Hlen.
  destruct value as [|a [|b [|c [|d rest]]]]; try (cbn in Hlen; lia).
  - rewrite convert_digits_3 by done. eexists. split; [|done].
    pose proof (char_to_int_range a). pose proof (char_to_int_range c). lia.
  - rewrite convert_digits_4 by done. eexists. split; [|done].
    pose proof (char_to_int_range a). pose proof (char_to_int_range b).
    pose proof (char_to_int_range d). lia.
Qed.

(** X7. [get_temperature] returns exactly when at least three bytes
    follow the optional sign, and then with a value of [int16_t]; on any
    shorter text, the empty one and a lone sign included, it subscripts
    the view outside its bounds. It never throws. *)
Theorem get_temperature_defined (value : bytes) :
  ((3 <= length (unsigned_part value))%nat ->
     exists v, get_temperature value = Ok v /\ int16_range v) /\
  ((length (unsigned_part value) < 3)%nat ->
     get_temperature value = Undefined subscript_out_of_bounds) /\
  (forall e, get_temperature value <> Throw e).
Proof.
  rewrite get_temperature_unfold.
  assert (Hcases : forall sign (t : bytes), sign = 1 \/ sign = -1 ->
    ((3 <= length t)%nat -> exists v, convert_digits sign t = Ok v /\ int16_range v) /\
    ((length t < 3)%nat -> convert_digits sign t = Undefined subscript_out_of_bounds) /\
    (forall e, convert_digits sign t <> Throw e)).
  { intros sign t Hs.
    assert (Hlong : (3 <= length t)%nat ->
              exists v, convert_digits sign t = Ok v /\ int16_range v).
    { intros Hl. destruct (convert_digits_long sign t Hs Hl) as (e & He & ->).
      eexists. split; [done|]. unfold int16_range. destruct Hs; subst; lia. }
    split; [exact Hlong|]. split; [apply convert_digits_short|].
    intros e. destruct (Nat.le_gt_cases 3 (length t)) as [Hl|Hl].
    - destruct (Hlong Hl) as (v & -> & _). discriminate.
    - rewrite convert_digits_short by done. discriminate. }
  destruct value as [|c rest]; cbn [unsigned_part].
  - split; [cbn; lia|]. split; [done|discriminate].
  - destruct (decide (c = "-"%byte)); apply Hcases; auto.
Qed.

(** X8. The sign is exact: when a text that does not start with ['-']
    converts to [v], the same text behind a ['-'] converts to [- v]. No
    wrap-around of [int16_t] occurs on the way. *)
Theorem get_temperature_negate (value : bytes) (v : Z) :
  unsigned_part value = value ->
  get_temperature value = Ok v ->
  get_temperature ("-"%byte :: value) = Ok (- v).
Proof.
  intros Hu Hv. rewrite get_temperature_unfold in Hv |- *.
  destruct (decide ("-"%byte = "-"%byte)) as [_|?]; [|done].
  destruct value as [|c rest]; [done|].
  cbn [unsigned_part] in Hu.
  destruct (decide (c = "-"%byte)) as [->|_].
  { exfalso. apply (f_equal length) in Hu. cbn in Hu. lia. }
  destruct (Nat.le_gt_cases 3 (length (c :: rest))) as [Hl|Hl].
  - destruct (c :: rest) as [|a [|b [|x [|d t]]]] eqn:E; try (cbn in Hl; lia).
    + rewrite convert_digits_3 in * by auto. injection Hv as <-. f_equal. lia.
    + rewrite convert_digits_4 in * by auto. injection Hv as <-. f_equal. lia.
  - rewrite convert_digits_short in Hv by done. discriminate.
Qed.

Lemma get_temperature_negate_witness :
  get_temperature ("-"%byte :: B "12.3") = Ok (- 123).
Proof. apply (get_temperature_negate (B "12.3") 123); reflexivity. Defined.

(** X9. The parser does not validate the text. With no leading ['-'],
    a text of three bytes converts from its first and third byte and a
    longer one from its first, second and fourth byte, by the digit
    arithmetic alone: the byte at the place of the decimal point and
    every byte after the fractional digit are never read, and the bytes
    that are read need not be digits. *)
Theorem get_temperature_unchecked (a b c : byte) :
  a <> "-"%byte ->
  get_temperature [a; b; c] = Ok (10 * char_to_int a + char_to_int c - 528) /\
  forall d rest,
    get_temperature (a :: b :: c :: d :: rest)
    = Ok (100 * char_to_int a + 10 * char_to_int b + char_to_int d - 5328).
Proof.
  intros Ha. split; [|intros d rest]; rewrite get_temperature_unfold;
    destruct (decide (a = "-"%byte)) as [?|_]; try done.
  - rewrite convert_digits_3 by auto. f_equal. lia.
  - rewrite convert_digits_4 by auto. f_equal. lia.
Qed.

Lemma get_temperature_unchecked_witness :
  get_temperature (B "1,5") = Ok 15 /\
  get_temperature (B "12x3 and more") = Ok 123.
Proof.
  destruct (get_temperature_unchecked "1"%byte ","%byte "5"%byte) as [H3 _]; [discriminate|].
  destruct (get_temperature_unchecked "1"%byte "2"%byte "x"%byte) as [_ H4]; [discriminate|].
  split; [exact H3|exact (H4 "3"%byte (B " and more"))].
Defined.

(** ** Lines and records *)

(** The parser on the text of a scaled value. *)
Lemma get_temperature_encode (v : Z) :
  -999 <= v <= 999 -> get_temperature (encode_temperature v) = Ok v.
Proof.
  intros Hv. unfold encode_temperature.
  remember (Z.abs v) as a eqn:Ea.
  assert (Ha : 0 <= a <= 999) by lia.
  pose proof (Z.div_mod a 10 ltac:(lia)) as Hdm.
  pose proof (Z.mod_pos_bound a 10 ltac:(lia)) as Hm.
  pose proof (Z.div_mod (a / 10) 10 ltac:(lia)) as Hdm2.
  pose proof (Z.mod_pos_bound (a / 10) 10 ltac:(lia)) as Hm2.
  assert (Hdd : a / 100 = a / 10 / 10) by (rewrite Z.div_div; [done|lia|lia]).
  destruct (Z.ltb_spec a 100) as [Hlt|Hge]; cbn [app].
  - assert (a / 10 / 10 = 0) by (apply Z.div_small; lia).
    rewrite (get_temperature_d_d (v <? 0)) by lia.
    f_equal. destruct (Z.ltb_spec v 0); lia.
  - assert (a / 100 < 10) by (apply Z.div_lt_upper_bound; lia).
    assert (0 <= a / 100) by (apply Z.div_pos; lia).
    change ([digit_char (a / 100)] ++ [digit_char (a / 10 mod 10); "."%byte; digit_char (a mod 10)])
      with [digit_char (a / 100); digit_char (a / 10 mod 10); "."%byte; digit_char (a mod 10)].
    rewrite (get_temperature_dd_d (v <? 0)) by lia.
    f_equal. destruct (Z.ltb_spec v 0); lia.
Qed.

Lemma sv_find_absent (line : bytes) (c : byte) : c ∉ line -> sv_find line c 0 = npos.
Proof. intros H. apply (sv_find_not_found [] line c H). Qed.

Lemma sv_substr_all (line : bytes) :
  sv_size line <= npos -> sv_substr line 0 npos = Ok line.
Proof.
  intros H. unfold sv_substr. destruct (Z.ltb_spec (sv_size line) 0).
  { unfold sv_size in *. lia. }
  cbn [Z.to_nat drop]. rewrite Z.sub_0_r, Z.min_r by lia.
  unfold sv_size. rewrite Nat2Z.id. by rewrite take_ge.
Qed.

Lemma sv_substr_suffix (pre rest : bytes) :
  sv_size (pre ++ rest) <= npos ->
  sv_substr (pre ++ rest) (sv_size pre) npos = Ok rest.
Proof.
  intros H. unfold sv_substr, sv_size in *. rewrite length_app in *.
  destruct (Z.ltb_spec (Z.of_nat (length pre + length rest)) (Z.of_nat (length pre))); [lia|].
  rewrite Nat2Z.id, drop_app_length. f_equal. apply take_ge. lia.
Qed.

(** The record of a well formed line. *)
Lemma parse_line_encode (r : bytes * Z) :
  data_sep ∉ r.1 -> -999 <= r.2 <= 999 -> valid_view (encode_record r) ->
  parse_line (encode_record r) = Ok r.
Proof.
  destruct r as [name v]. cbn [fst snd]. intros Hname Hv Hvalid.
  unfold parse_line, encode_record in *. cbn [fst snd] in *.
  pose proof (sv_find_found [] name (encode_temperature v) data_sep Hname) as Hf.
  cbn [app] in Hf. change (sv_size []) with 0 in Hf. rewrite Hf, Z.add_0_l.
  pose proof (sv_substr_middle [] name (data_sep :: encode_temperature v)) as Hs.
  cbn [app] in Hs. change (sv_size []) with 0 in Hs. rewrite Hs, outcome_bind_Ok.
  unfold valid_view, npos in Hvalid.
  assert (Hsz : sv_size (name ++ data_sep :: encode_temperature v)
                = sv_size name + 1 + sv_size (encode_temperature v)).
  { unfold sv_size. rewrite length_app. cbn [length]. lia. }
  assert (0 <= sv_size name /\ 0 <= sv_size (encode_temperature v)) as [??]
    by (unfold sv_size; lia).
  rewrite to_size_t_id by lia.
  pose proof (sv_substr_suffix (name ++ [data_sep]) (encode_temperature v)) as Hs2.
  rewrite <- app_assoc in Hs2. cbn [app] in Hs2.
  replace (sv_size (name ++ [data_sep])) with (sv_size name + 1) in Hs2
    by (unfold sv_size; rewrite length_app; cbn [length]; lia).
  rewrite Hs2 by (unfold npos; lia). rewrite outcome_bind_Ok.
  by rewrite get_temperature_encode.
Qed.

(** X10. A well formed line updates the entry of its name with its
    value: for a name without separator and a scaled value [v] of at
    most two integer digits, the line [name;text of v] puts into the map
    the statistics of [name], or the default ones when the name is new,
    updated with [v]; every other entry is left as it is. *)
Theorem process_line_record (name : bytes) (v : Z) (cities : StatsMap) :
  data_sep ∉ name -> -999 <= v <= 999 ->
  valid_view (name ++ data_sep :: encode_temperature v) ->
  process_line (name ++ data_sep :: encode_temperature v) cities
  = Ok (<[name := Stats.update (default Stats.init (cities !! name)) v]> cities).
Proof.
  intros Hname Hv Hvalid. rewrite process_line_parse.
  pose proof (parse_line_encode (name, v) Hname Hv Hvalid) as Hp.
  unfold encode_record in Hp. cbn [fst snd] in Hp. by rewrite Hp.
Qed.

Lemma process_line_record_witness :
  process_line (B "Hamburg" ++ data_sep :: encode_temperature (-35)) (∅ : StatsMap)
  = Ok (<[B "Hamburg" := Stats.update
            (default Stats.init ((∅ : StatsMap) !! B "Hamburg")) (-35)]> ∅).
Proof.
  apply (process_line_record (B "Hamburg") (-35) ∅).
  - intros H. apply list_elem_of_In in H. cbn in H.
    repeat (destruct H as [H|H]; [discriminate|]). done.
  - lia.
  - vm_compute. reflexivity.
Defined.

(** X11. A line without separator is taken whole, both as the name and
    as the text of the value: [find] returns [npos], [substr(0, npos)]
    is the line and [npos + 1] wraps around to [0]. When its text
    converts, the line becomes a key of the map; nothing rejects it. *)
Theorem process_line_no_separator (line : bytes) (cities : StatsMap) :
  data_sep ∉ line -> valid_view line ->
  process_line line cities
  = (temp ← get_temperature line;
     Ok (<[line := Stats.update (default Stats.init (cities !! line)) temp]> cities)).
Proof.
  intros Hsep Hvalid. rewrite process_line_parse. unfold parse_line.
  rewrite sv_find_absent by done.
  change (to_size_t (npos + 1)) with 0.
  unfold valid_view in Hvalid. rewrite sv_substr_all by lia. rewrite !outcome_bind_Ok.
  by destruct (get_temperature line).
Qed.

Lemma process_line_no_separator_witness :
  process_line (B "12.3") (∅ : StatsMap)
  = (temp ← get_temperature (B "12.3");
     Ok (<[B "12.3" := Stats.update
             (default Stats.init ((∅ : StatsMap) !! B "12.3")) temp]> ∅)).
Proof.
  apply (process_line_no_separator (B "12.3") ∅).
  - intros H. apply list_elem_of_In in H. cbn in H.
    repeat (destruct H as [H|H]; [discriminate|]). done.
  - vm_compute. reflexivity.
Defined.

(** ** Aggregation of records *)

Lemma foldr_min_le d (l : list Z) : foldr Z.min d l <= d.
Proof. induction l as [|x l IH]; cbn; lia. Qed.

Lemma foldr_max_ge d (l : list Z) : d <= foldr Z.max d l.
Proof. induction l as [|x l IH]; cbn; lia. Qed.

(** Successive updates in closed form. *)
Lemma foldl_update_fields (ts : list Z) : forall s,
  Stats.well_typed s -> Forall int16_range ts ->
  foldl Stats.update s ts =
  {| Stats.min_ := Z.min (Stats.min_ s) (foldr Z.min (2 ^ 15 - 1) ts);
     Stats.max_ := Z.max (Stats.max_ s) (foldr Z.max (- 2 ^ 15) ts);
     Stats.sum_ := to_int64 (Stats.sum_ s + sum_Z ts);
     Stats.count_ := to_int32 (Stats.count_ s + Z.of_nat (length ts)) |}.
Proof.
  induction ts as [|t ts IH]; intros s Hs Hts.
  - destruct s as [mn mx sm ct]. unfold Stats.well_typed, int16_range in Hs.
    cbn [Stats.min_ Stats.max_ Stats.sum_ Stats.count_ foldl foldr sum_Z length] in *.
    destruct Hs as (?&?&?&?).
    rewrite (to_int64_id (sm + 0)), (to_int32_id (ct + Z.of_nat 0))
      by (by rewrite Z.add_0_r).
    f_equal; lia.
  - apply Forall_cons in Hts as [Ht Hts]. cbn [foldl].
    rewrite IH by auto using Stats_update_well_typed.
    cbn [Stats.update Stats.min_ Stats.max_ Stats.sum_ Stats.count_ foldr sum_Z length].
    f_equal; try lia.
    all: rewrite ?to_int64_add_l, ?to_int32_add_l; f_equal; unfold sum_Z; lia.
Qed.

Lemma apply_temps_stats (ts : list Z) :
  Forall int16_range ts ->
  apply_temps None ts = match ts with [] => None | _ => Some (stats_of_temps ts) end.
Proof.
  intros Hts. destruct ts as [|t ts]; [done|].
  rewrite apply_temps_cons. f_equal. change (default Stats.init None) with Stats.init.
  change (foldl Stats.update (Stats.update Stats.init t) ts)
    with (foldl Stats.update Stats.init (t :: ts)).
  rewrite foldl_update_fields by (done || apply Stats_init_well_typed).
  unfold stats_of_temps, Stats.init.
  cbn [Stats.min_ Stats.max_ Stats.sum_ Stats.count_].
  pose proof (foldr_min_le (2 ^ 15 - 1) (t :: ts)).
  pose proof (foldr_max_ge (- 2 ^ 15) (t :: ts)). f_equal; lia.
Qed.

Lemma temps_of_range (city : bytes) (rs : list (bytes * Z)) :
  Forall (fun r => int16_range r.2) rs -> Forall int16_range (temps_of city rs).
Proof.
  intros H. apply Forall_forall. intros t Ht.
  apply list_elem_of_omap in Ht as (r & Hr & Hrt).
  rewrite Forall_forall in H. specialize (H r Hr).
  destruct (decide (r.1 = city)); [|done]. by injection Hrt as <-.
Qed.

(** The entry of every name in the map built from a list of records. *)
Lemma records_lookup (rs : list (bytes * Z)) (city : bytes) :
  Forall (fun r => int16_range r.2) rs ->
  foldl record_update ∅ rs !! city
  = match temps_of city rs with [] => None | ts => Some (stats_of_temps ts) end.
Proof.
  intros Hrs. rewrite foldl_record_update_lookup, lookup_empty.
  rewrite apply_temps_stats by (by apply temps_of_range). by destruct (temps_of city rs).
Qed.

Lemma digit_char_not_nl d : 0 <= d <= 9 -> digit_char d <> nl.
Proof.
  intros H. destruct (digit_char_cases d H) as [->|[->|[->|[->|[->|[->|[->|[->|[->| ->]]]]]]]]];
    discriminate.
Qed.

Lemma encode_temperature_no_nl (v : Z) : -999 <= v <= 999 -> nl ∉ encode_temperature v.
Proof.
  intros Hv. unfold encode_temperature.
  assert (Ha : 0 <= Z.abs v <= 999) by lia.
  pose proof (Z.mod_pos_bound (Z.abs v) 10 ltac:(lia)).
  pose proof (Z.mod_pos_bound (Z.abs v / 10) 10 ltac:(lia)).
  assert (0 <= Z.abs v / 100 <= 9).
  { split; [apply Z.div_pos; lia|].
    assert (Z.abs v / 100 < 10) by (apply Z.div_lt_upper_bound; lia). lia. }
  rewrite !not_elem_of_app. split; [|split].
  - destruct (v <? 0); [|apply not_elem_of_nil].
    rewrite not_elem_of_cons. split; [discriminate|apply not_elem_of_nil].
  - destruct (Z.abs v <? 100); [apply not_elem_of_nil|].
    rewrite not_elem_of_cons. split; [|apply not_elem_of_nil].
    intros E. symmetry in E. by apply digit_char_not_nl in E.
  - rewrite !not_elem_of_cons. repeat split; try discriminate; try apply not_elem_of_nil.
    + intros E. symmetry in E. apply digit_char_not_nl in E; [done|lia].
    + intros E. symmetry in E. apply digit_char_not_nl in E; [done|lia].
Qed.

Lemma encode_record_no_nl (r : bytes * Z) : record_ok r -> nl ∉ encode_record r.
Proof.
  intros (_ & Hnl & Hv). unfold encode_record.
  rewrite not_elem_of_app, not_elem_of_cons. split; [done|]. split; [discriminate|].
  by apply encode_temperature_no_nl.
Qed.

Lemma valid_view_join_lines_cons (l : bytes) (lines : list bytes) (tail : bytes) :
  valid_view (join_lines (l :: lines) ++ tail) ->
  valid_view l /\ valid_view (join_lines lines ++ tail).
Proof.
  rewrite join_lines_cons. unfold valid_view, sv_size.
  rewrite !length_app. cbn [length]. lia.
Qed.

Lemma mapM_parse_line_encode (rs : list (bytes * Z)) (tail : bytes) :
  Forall record_ok rs ->
  valid_view (join_lines (map encode_record rs) ++ tail) ->
  mapM_outcome parse_line (map encode_record rs) = Ok rs.
Proof.
  induction 1 as [|r rs Hr _ IH]; intros Hv; [done|].
  cbn [map] in Hv. apply valid_view_join_lines_cons in Hv as [Hv1 Hv2].
  cbn [map mapM_outcome]. destruct Hr as (Hsep & _ & Hval).
  rewrite parse_line_encode by done. rewrite outcome_bind_Ok.
  by rewrite IH.
Qed.

(** The scan of a segment of well formed lines, with or without an
    unterminated rest, is the map built from their records. *)
Lemma process_segment_records (rs : list (bytes * Z)) (tail : bytes) :
  Forall record_ok rs -> nl ∉ tail ->
  valid_view (join_lines (map encode_record rs) ++ tail) ->
  process_segment (join_lines (map encode_record rs) ++ tail)
  = Ok (foldl record_update ∅ rs).
Proof.
  intros Hrs Htail Hv. unfold process_segment, Reader.new.
  pose proof (for_each_line_fold process_line (map encode_record rs) [] tail make_map
                (Datatypes.S (length (join_lines (map encode_record rs) ++ tail)))) as H.
  cbn [app] in H. change (sv_size []) with 0 in H. rewrite H; [|  |done|done|].
  - rewrite fold_lines_records, (mapM_parse_line_encode rs tail) by done. done.
  - apply Forall_forall. intros l Hl. apply list_elem_of_fmap in Hl as (r & -> & Hr).
    rewrite Forall_forall in Hrs. by apply encode_record_no_nl, Hrs.
  - rewrite length_app. pose proof (length_join_lines (map encode_record rs)). lia.
Qed.

Lemma record_ok_range (rs : list (bytes * Z)) :
  Forall record_ok rs -> Forall (fun r => int16_range r.2) rs.
Proof.
  intros H. eapply Forall_impl; [exact H|].
  intros r (_ & _ & Hv). unfold int16_range. lia.
Qed.

(** X12. The scan of a segment of well formed lines. If the segment is
    the text of the records [rs] (each [name;value] and a terminator)
    followed by a rest without terminator, [process_segment] returns a
    map that has an entry exactly for the names that occur, and the
    entry of a name holds the least and the greatest of its values,
    their sum and their number (in the arithmetic of [int64_t] and
    [int32_t]); the rest is not counted. *)
Theorem process_segment_stats (rs : list (bytes * Z)) (tail : bytes) :
  Forall record_ok rs -> nl ∉ tail ->
  valid_view (join_lines (map encode_record rs) ++ tail) ->
  exists cities,
    process_segment (join_lines (map encode_record rs) ++ tail) = Ok cities /\
    forall name,
      (temps_of name rs = [] -> cities !! name = None) /\
      (temps_of name rs <> [] ->
       exists s, cities !! name = Some s /\
         Stats.min_ s ∈ temps_of name rs /\
         (forall t, t ∈ temps_of name rs -> Stats.min_ s <= t <= Stats.max_ s) /\
         Stats.max_ s ∈ temps_of name rs /\
         Stats.sum_ s = to_int64 (sum_Z (temps_of name rs)) /\
         Stats.count_ s = to_int32 (Z.of_nat (length (temps_of name rs)))).
Proof.
  intros Hrs Htail Hv. exists (foldl record_update ∅ rs).
  split; [by apply process_segment_records|].
  intros name. rewrite records_lookup by (by apply record_ok_range).
  pose proof (temps_of_range name rs (record_ok_range rs Hrs)) as Hts.
  destruct (temps_of name rs) as [|t ts] eqn:E; [done|].
  split; [done|]. intros _. eexists. split; [done|].
  unfold stats_of_temps. cbn [Stats.min_ Stats.max_ Stats.sum_ Stats.count_].
  destruct (foldr_min_spec (2 ^ 15 - 1) (t :: ts)) as [Hmin1 Hmin2]; [done| |].
  { eapply Forall_impl; [exact Hts|]. unfold int16_range. intros; lia. }
  destruct (foldr_max_spec (- 2 ^ 15) (t :: ts)) as [Hmax1 Hmax2]; [done| |].
  { eapply Forall_impl; [exact Hts|]. unfold int16_range. intros; lia. }
  repeat split; try done.
  - by apply Hmin2.
  - by apply Hmax2.
Qed.

Lemma process_segment_stats_witness :
  exists cities,
    process_segment (join_lines (map encode_record [(B "a", 120); (B "b", -35); (B "a", 80)])
                       ++ B "c;9") = Ok cities /\
    cities !! B "zz" = None.
Proof.
  destruct (process_segment_stats [(B "a", 120); (B "b", -35); (B "a", 80)] (B "c;9"))
    as (cities & Hp & Hc).
  - repeat (apply Forall_cons_2 || apply Forall_nil_2);
      (split; [|split; [|cbn; lia]]); intros H; apply list_elem_of_In in H; cbn in H;
      repeat (destruct H as [H|H]; [discriminate|]); done.
  - intros H; apply list_elem_of_In in H; cbn in H;
      repeat (destruct H as [H|H]; [discriminate|]); done.
  - vm_compute. reflexivity.
  - exists cities. split; [exact Hp|]. apply (Hc (B "zz")). reflexivity.
Defined.

(** X13. Updating and merging commute with concatenation: the merge of
    the maps built from several lists of records is the map built from
    the concatenation of the lists, whatever names the lists share. *)
Theorem merge_results_records (rs : list (bytes * Z)) (rss : list (list (bytes * Z))) :
  Forall (Forall (fun r => int16_range r.2)) (rs :: rss) ->
  merge_results (map (foldl record_update ∅) (rs :: rss))
  = Ok (foldl record_update ∅ (concat (rs :: rss))).
Proof.
  intros H. apply Forall_cons in H as [Hrs Hrss].
  cbn [map merge_results concat]. f_equal.
  rewrite merge_segments; [|done|].
  - by rewrite foldl_app.
  - apply foldl_record_update_well_typed; [done|apply well_typed_map_empty].
Qed.

Lemma merge_results_records_witness :
  merge_results (map (foldl record_update ∅) [[(B "a", 120)]; [(B "b", -35); (B "a", 80)]])
  = Ok (foldl record_update ∅ (concat [[(B "a", 120)]; [(B "b", -35); (B "a", 80)]])).
Proof.
  apply (merge_results_records [(B "a", 120)] [[(B "b", -35); (B "a", 80)]]).
  repeat (apply Forall_cons_2 || apply Forall_nil_2); unfold int16_range; cbn; lia.
Defined.

(** X14. The merged map does not depend on where the text is cut: two
    non-empty lists of segments, each segment empty or ending with a
    terminator, that have the same concatenation give the same result
    of [process_all], failures included. *)
Theorem process_all_partition_independent (segments1 segments2 : list bytes) :
  segments1 <> [] -> segments2 <> [] ->
  Forall (fun s => s = [] \/ terminated s) segments1 ->
  Forall (fun s => s = [] \/ terminated s) segments2 ->
  concat segments1 = concat segments2 ->
  valid_view (concat segments1) ->
  process_all segments1 = process_all segments2.
Proof.
  intros Hne1 Hne2 H1 H2 Hc Hv.
  rewrite (process_all_concat segments1), (process_all_concat segments2) by
    (done || by rewrite <- Hc).
  by rewrite Hc.
Qed.

Lemma process_all_partition_independent_witness :
  process_all [B "a;1.0" ++ [nl]; B "b;2.0" ++ [nl] ++ B "a;3.0" ++ [nl]]
  = process_all [B "a;1.0" ++ [nl] ++ B "b;2.0" ++ [nl]; []; B "a;3.0" ++ [nl]].
Proof.
  apply process_all_partition_independent.
  - discriminate.
  - discriminate.
  - repeat (apply Forall_cons_2 || apply Forall_nil_2); right; reflexivity.
  - apply Forall_cons_2; [right; reflexivity|].
    apply Forall_cons_2; [left; reflexivity|].
    apply Forall_cons_2; [right; reflexivity|apply Forall_nil_2].
  - reflexivity.
  - vm_compute. reflexivity.
Defined.

(** ** When the segmenter stays inside the buffer *)

Lemma sv_at_outside (s : bytes) (i : Z) :
  sv_size s <= i -> sv_at s i = Undefined subscript_out_of_bounds.
Proof.
  intros H. unfold sv_at. destruct (Z.ltb_spec i (sv_size s)); [lia|].
  by rewrite andb_false_r.
Qed.

Lemma sv_substr_inside (s : bytes) (pos count : Z) :
  pos <= sv_size s -> exists r, sv_substr s pos count = Ok r.
Proof.
  intros H. unfold sv_substr. destruct (Z.ltb_spec (sv_size s) pos); [lia|]. eauto.
Qed.

(** A segment whose tentative end is inside the buffer is computed. *)
Lemma segment_inside (data : bytes) (chunks size i : Z) :
  terminated data -> sv_size data < 2 ^ 63 -> 1 <= size ->
  0 <= i < chunks -> (i + 1) * size <= sv_size data ->
  exists seg, segment data chunks size i = Ok seg.
Proof.
  intros Hterm Hsmall Hsize Hi Hend.
  assert (Hv : valid_view data) by (unfold valid_view, npos; lia).
  unfold segment, segment_bounds.
  rewrite (to_size_t_id (i * size)) by nia.
  rewrite (to_size_t_id (i * size + size)) by lia.
  destruct (Z.ltb_spec i chunks) as [_|?]; [|lia].
  rewrite (adjust_align data (i * size + size)) by (done || nia).
  destruct (Z.gtb_spec i 0) as [Hpos|Hz].
  - rewrite (adjust_align data (i * size)) by (done || nia). cbn.
    destruct (align_spec data (i * size) Hterm Hv ltac:(nia)) as ([??] & _).
    apply sv_substr_inside. lia.
  - cbn. apply sv_substr_inside. nia.
Qed.

(** The first segment whose tentative end is behind the buffer reads
    [data[end - 1]] outside of it. *)
Lemma segment_outside (data : bytes) (chunks size i : Z) :
  terminated data -> sv_size data < 2 ^ 63 -> 1 <= size < 2 ^ 63 ->
  0 < i < chunks -> i * size <= sv_size data < (i + 1) * size ->
  segment data chunks size i = Undefined subscript_out_of_bounds.
Proof.
  intros Hterm Hsmall Hsize Hi Hend.
  assert (Hv : valid_view data) by (unfold valid_view, npos; lia).
  unfold segment, segment_bounds.
  rewrite (to_size_t_id (i * size)) by nia.
  rewrite (to_size_t_id (i * size + size)) by lia.
  destruct (Z.ltb_spec i chunks) as [_|?]; [|lia].
  destruct (Z.gtb_spec i 0) as [_|?]; [|lia].
  rewrite (adjust_align data (i * size)) by (done || nia). rewrite outcome_bind_Ok.
  rewrite sv_at_outside; [done|]. rewrite to_size_t_id by lia. lia.
Qed.

Lemma split_loop_fails data chunks size (before : list Z) (i : Z) (after : list Z) u :
  Forall (fun j => exists seg, segment data chunks size j = Ok seg) before ->
  segment data chunks size i = Undefined u ->
  forall segments,
    split_loop data chunks size (before ++ i :: after) segments = Undefined u.
Proof.
  intros Hb Hi. induction Hb as [|j before [seg Hj] _ IH]; intros segments;
    cbn [app split_loop].
  - by rewrite Hi.
  - rewrite Hj, outcome_bind_Ok. apply IH.
Qed.

Lemma seqZ_split (n k : Z) :
  0 <= k < n -> seqZ 0 n = seqZ 0 k ++ k :: seqZ (k + 1) (n - k - 1).
Proof.
  intros H. replace n with (k + (n - k)) at 1 by lia.
  rewrite seqZ_app by lia. f_equal. rewrite Z.add_0_l.
  rewrite seqZ_cons by lia. reflexivity.
Qed.

(** X16. On a buffer that ends with a terminator, [split_input] returns
    its segments exactly when the worker count is at least one and
    divides the size of the buffer. With a positive worker count that
    does not divide the size it subscripts the buffer outside its
    bounds, with zero workers it divides by zero, and a negative count
    is rejected by the vector constructor. *)
Theorem split_input_defined (data : bytes) (chunks : Z) :
  terminated data -> sv_size data < 2 ^ 63 -> chunks < 2 ^ 31 ->
  (1 <= chunks -> (chunks | sv_size data) ->
     exists segments, split_input data chunks = Ok segments) /\
  (1 <= chunks -> ~ (chunks | sv_size data) ->
     split_input data chunks = Undefined subscript_out_of_bounds) /\
  (chunks = 0 -> split_input data chunks = Undefined division_by_zero) /\
  (chunks < 0 -> split_input data chunks = Throw length_error).
Proof.
  intros Hterm Hsmall Hint. split; [|split; [|split]].
  - intros Hchunks [size Hdiv]. eexists.
    apply (split_input_aligned data chunks size); [done..|lia].
  - intros Hchunks Hndiv.
    destruct (terminated_lookup data Hterm) as [Hpos _].
    unfold split_input.
    destruct (Z.ltb_spec chunks 0); [lia|]. destruct (Z.eqb_spec chunks 0); [lia|].
    rewrite to_size_t_id by lia.
    set (size := (sv_size data + chunks - 1) / chunks).
    pose proof (Z.div_mod (sv_size data + chunks - 1) chunks ltac:(lia)) as Hdm.
    pose proof (Z.mod_pos_bound (sv_size data + chunks - 1) chunks ltac:(lia)) as Hmod.
    fold size in Hdm.
    assert (Hsize1 : 1 <= size).
    { unfold size. apply Z.div_le_lower_bound; lia. }
    assert (Hcover : sv_size data <= chunks * size) by lia.
    assert (Hstrict : sv_size data < chunks * size).
    { destruct (Z.eq_dec (sv_size data) (chunks * size)) as [E|]; [|lia].
      exfalso. apply Hndiv. exists size. lia. }
    set (k := sv_size data / size).
    pose proof (Z.div_mod (sv_size data) size ltac:(lia)) as Hk.
    pose proof (Z.mod_pos_bound (sv_size data) size ltac:(lia)) as Hkm.
    fold k in Hk.
    assert (Hsize2 : size <= sv_size data).
    { unfold size. apply Z.div_le_upper_bound; nia. }
    assert (Hk1 : 1 <= k).
    { unfold k. apply Z.div_le_lower_bound; lia. }
    assert (Hkn : k < chunks) by nia.
    rewrite (seqZ_split chunks k) by lia.
    apply split_loop_fails.
    + apply Forall_forall. intros j Hj.
      apply list_elem_of_lookup in Hj as (t & Ht). apply lookup_seqZ in Ht as [-> Ht].
      apply segment_inside; [done|done|done|lia|nia].
    + apply segment_outside; [done|done|lia|lia|nia].
  - intros ->. reflexivity.
  - intros Hneg. unfold split_input. by destruct (Z.ltb_spec chunks 0); [|lia].
Qed.

Lemma split_input_defined_witness :
  (exists segments, split_input (B "a;1.0" ++ [nl]) 3 = Ok segments) /\
  split_input (B "a;1.0" ++ [nl]) 4 = Undefined subscript_out_of_bounds.
Proof.
  destruct (split_input_defined (B "a;1.0" ++ [nl]) 3) as (H3 & _);
    [reflexivity|vm_compute; reflexivity|lia|].
  destruct (split_input_defined (B "a;1.0" ++ [nl]) 4) as (_ & H4 & _);
    [reflexivity|vm_compute; reflexivity|lia|].
  split.
  - apply H3; [lia|]. exists 2. reflexivity.
  - apply H4; [lia|]. intros [z Hz].
    assert (E : sv_size (B "a;1.0" ++ [nl]) = 6) by reflexivity.
    rewrite E in Hz. lia.
Defined.

(** ** The whole program on a well formed file *)

Lemma terminated_records (rs : list (bytes * Z)) :
  rs <> [] -> terminated (join_lines (map encode_record rs)).
Proof.
  intros Hne. destruct (exists_last Hne) as (rs' & r & ->).
  rewrite map_app, join_lines_app. cbn [map]. rewrite join_lines_cons.
  unfold terminated. rewrite app_assoc. cbn [join_lines concat map app].
  change (?x ++ [nl]) with (x ++ [nl]). apply last_snoc.
Qed.

Lemma records_map_nonempty (rs : list (bytes * Z)) :
  rs <> [] -> Forall (fun r => int16_range r.2) rs ->
  foldl record_update ∅ rs <> ∅.
Proof.
  intros Hne Hrs Hempty. destruct rs as [|r rs]; [done|].
  pose proof (records_lookup (r :: rs) r.1 Hrs) as H.
  rewrite Hempty, lookup_empty in H.
  assert (E : temps_of r.1 (r :: rs) = r.2 :: temps_of r.1 rs).
  { unfold temps_of. cbn. by destruct (decide (r.1 = r.1)). }
  by rewrite E in H.
Qed.

(** X18. The program on a well formed file. If the file holds the lines
    of a non-empty list of records and the worker count is at least one
    and divides the size of the file, [process_file] writes a report,
    and it is the report of the map built from the records one after
    the other: the file is mapped, cut, scanned and merged without any
    failure, whatever the worker count. *)
Theorem process_file_records {F : FloatOps}
    (w : world) (path : bytes) (rs : list (bytes * Z)) (chunks : Z) :
  rs <> [] -> Forall record_ok rs ->
  files w path = Some (join_lines (map encode_record rs)) ->
  sv_size (join_lines (map encode_record rs)) < 2 ^ 63 ->
  number_of_threads (env_NUM_THREADS w) (hardware_concurrency w) = Ok chunks ->
  1 <= chunks -> (chunks | sv_size (join_lines (map encode_record rs))) ->
  process_file w path = dump_results (foldl record_update ∅ rs) /\
  exists out, process_file w path = Ok out.
Proof.
  intros Hne Hrs Hfile Hsmall Hthreads Hchunks Hdiv.
  set (data := join_lines (map encode_record rs)) in *.
  assert (Hterm : terminated data) by (by apply terminated_records).
  destruct (terminated_lookup data Hterm) as [Hpos _].
  assert (Hv : valid_view data) by (unfold valid_view, npos; lia).
  assert (Hagg : aggregate data chunks = Ok (foldl record_update ∅ rs)).
  { rewrite aggregate_aligned by done.
    pose proof (process_segment_records rs [] Hrs) as H.
    rewrite app_nil_r in H. apply H; [apply not_elem_of_nil|done]. }
  assert (Hrun : process_file w path = dump_results (foldl record_update ∅ rs)).
  { unfold process_file, MappedFile. rewrite Hfile.
    destruct (Z.eqb_spec (sv_size data) 0); [lia|].
    rewrite outcome_bind_Ok, Hthreads, outcome_bind_Ok.
    unfold aggregate in Hagg.
    destruct (split_input data chunks) as [segments| | |]; try done.
    change (process_all segments = Ok (foldl record_update ∅ rs)) in Hagg.
    by rewrite outcome_bind_Ok, Hagg, outcome_bind_Ok. }
  split; [done|]. rewrite Hrun.
  destruct (sorted_entries (foldl record_update ∅ rs)) as [|first rest] eqn:E.
  - apply sorted_entries_nil in E.
    by apply records_map_nonempty in E; [|done|apply record_ok_range].
  - unfold dump_results. rewrite E. eauto.
Qed.

Lemma process_file_records_witness :
  exists out,
    @process_file exact_FloatOps
      {| files := fun _ => Some (join_lines (map encode_record [(B "a", 120); (B "b", -35)]));
         env_NUM_THREADS := Some (B "2"); hardware_concurrency := 8 |}
      (B "measurements.txt") = Ok out.
Proof.
  eapply (@process_file_records exact_FloatOps _ _ [(B "a", 120); (B "b", -35)] 2).
  - discriminate.
  - repeat (apply Forall_cons_2 || apply Forall_nil_2);
      (split; [|split; [|cbn; lia]]); intros H; apply list_elem_of_In in H; cbn in H;
      repeat (destruct H as [H|H]; [discriminate|]); done.
  - reflexivity.
  - vm_compute. reflexivity.
  - vm_compute. reflexivity.
  - lia.
  - exists 7. vm_compute. reflexivity.
Defined.

(** ** Failures of [process_file] before any line is read *)

(** X19. The failures of [process_file] that do not depend on the
    content of the file, in the order of the code. A file that cannot be
    opened or that is empty gives [std::runtime_error] whatever the
    environment holds, since the file is mapped before the worker count
    is read. On a non-empty file an exception of [number_of_threads]
    leaves [process_file] unchanged, a worker count of zero is a
    division by zero in [split_input], and a negative worker count is
    rejected by the vector constructor with [std::length_error]. *)
Theorem process_file_failures {F : FloatOps} (w : world) (path : bytes) :
  (files w path = None -> process_file w path = Throw runtime_error) /\
  (files w path = Some [] -> process_file w path = Throw runtime_error) /\
  (forall data, files w path = Some data -> data <> [] ->
     (forall e,
        number_of_threads (env_NUM_THREADS w) (hardware_concurrency w) = Throw e ->
        process_file w path = Throw e) /\
     (number_of_threads (env_NUM_THREADS w) (hardware_concurrency w) = Ok 0 ->
        process_file w path = Undefined division_by_zero) /\
     (forall chunks,
        number_of_threads (env_NUM_THREADS w) (hardware_concurrency w) = Ok chunks ->
        chunks < 0 -> process_file w path = Throw length_error)).
Proof.
  unfold process_file, MappedFile. split; [|split].
  - by intros ->.
  - by intros ->.
  - intros data -> Hne.
    assert ((sv_size data =? 0) = false) as ->.
    { apply Z.eqb_neq. unfold sv_size. destruct data; [done|]. cbn [length]. lia. }
    rewrite outcome_bind_Ok. split; [|split].
    + by intros e ->.
    + by intros ->.
    + intros chunks -> Hneg. rewrite outcome_bind_Ok. unfold split_input.
      by destruct (Z.ltb_spec chunks 0); [|lia].
Qed.

Example process_file_failures_example :
  @process_file exact_FloatOps
    {| files := fun _ => None; env_NUM_THREADS := Some (B "x"); hardware_concurrency := 8 |}
    (B "measurements.txt") = Throw runtime_error /\
  @process_file exact_FloatOps
    {| files := fun _ => Some (B "a;1.0" ++ [nl]); env_NUM_THREADS := Some (B "x");
       hardware_concurrency := 8 |}
    (B "measurements.txt") = Throw invalid_argument /\
  @process_file exact_FloatOps
    {| files := fun _ => Some (B "a;1.0" ++ [nl]); env_NUM_THREADS := Some (B "0");
       hardware_concurrency := 8 |}
    (B "measurements.txt") = Undefined division_by_zero /\
  @process_file exact_FloatOps
    {| files := fun _ => Some (B "a;1.0" ++ [nl]); env_NUM_THREADS := Some (B "-2");
       hardware_concurrency := 8 |}
    (B "measurements.txt") = Throw length_error.
Proof. repeat split; vm_compute; reflexivity. Qed.
